(** * Device-tree source parser of qgenie_dts_summit: a shallow embedding

    This development embeds [app/services/parser.py] (comment stripping,
    brace scanning, the line-driven hierarchy builder, the overview summary
    and the idle-topology extractor) and the structural diff of
    [app/routes/main.py].

    Text is modelled as a Rocq [string], i.e. a sequence of 7-bit code
    points: the character classes of Python ([\s], [\w], [str.isspace],
    [str.splitlines]) are written out on the ASCII range. *)

From Stdlib Require Import String Ascii ZArith Lia.
From stdpp Require Import base list gmap sets strings sorting.

Local Open Scope string_scope.
Local Open Scope nat_scope.
Local Open Scope list_scope.

(* ------------------------------------------------------------------ *)
(** ** Characters *)

Definition nl : ascii := "010"%char.
Definition chr_eq (a b : ascii) : bool := Ascii.eqb a b.

(** [str.isspace] / regex [\s] on ASCII: \t \n \v \f \r, 0x1c-0x1f, space. *)
Definition is_space (c : ascii) : bool :=
  let n := nat_of_ascii c in
  ((9 <=? n) && (n <=? 13)) || ((28 <=? n) && (n <=? 32)).

(** regex [\w] on ASCII. *)
Definition is_word (c : ascii) : bool :=
  let n := nat_of_ascii c in
  ((48 <=? n) && (n <=? 57)) || ((65 <=? n) && (n <=? 90))
  || ((97 <=? n) && (n <=? 122)) || (n =? 95).

(** regex [\d] on ASCII. *)
Definition is_digit (c : ascii) : bool :=
  let n := nat_of_ascii c in (48 <=? n) && (n <=? 57).

Definition is_quote (c : ascii) : bool := chr_eq c "039" || chr_eq c "034".

(** Python [str(n)] for a non-negative integer. *)
Definition digit_char (d : nat) : ascii := ascii_of_nat (48 + d).

Fixpoint str_of_nat_go (fuel n : nat) (acc : string) : string :=
  match fuel with
  | 0 => acc
  | S f =>
      let acc' := String (digit_char (n mod 10)) acc in
      if n <? 10 then acc' else str_of_nat_go f (n / 10) acc'
  end.

Definition str_of_nat (n : nat) : string := str_of_nat_go (S n) n EmptyString.

(** Python [int(s)] on a string of ASCII digits. *)
Fixpoint int_of_digits_go (acc : nat) (s : string) : nat :=
  match s with
  | EmptyString => acc
  | String c s' => int_of_digits_go (10 * acc + (nat_of_ascii c - 48)) s'
  end.

Definition int_of_digits (s : string) : nat := int_of_digits_go 0 s.

(* ------------------------------------------------------------------ *)
(** ** [_strip_comments] *)

(** The loop of [_strip_comments], one character (or two, when the source
    does [i += 2]) per call; the four loop variables are the arguments.
    The empty [str_ch] before the first quote is [None]. *)
Fixpoint strip_go (in_str : bool) (str_ch : option ascii)
    (in_line_comment in_block_comment : bool) (s : string) : string :=
  match s with
  | EmptyString => EmptyString
  | String ch s1 =>
      if in_line_comment then
        if chr_eq ch nl then String ch (strip_go in_str str_ch false in_block_comment s1)
        else strip_go in_str str_ch true in_block_comment s1
      else if in_block_comment then
        match s1 with
        | String nxt s2 =>
            if chr_eq ch "*" && chr_eq nxt "/"
            then strip_go in_str str_ch in_line_comment false s2
            else strip_go in_str str_ch in_line_comment true s1
        | EmptyString => strip_go in_str str_ch in_line_comment true s1
        end
      else if in_str then
        match s1 with
        | String nxt s2 =>
            if chr_eq ch "\" then
              String ch (String nxt (strip_go in_str str_ch in_line_comment in_block_comment s2))
            else if bool_decide (Some ch = str_ch) then
              String ch (strip_go false str_ch in_line_comment in_block_comment s1)
            else String ch (strip_go true str_ch in_line_comment in_block_comment s1)
        | EmptyString =>
            if bool_decide (Some ch = str_ch) then
              String ch (strip_go false str_ch in_line_comment in_block_comment s1)
            else String ch (strip_go true str_ch in_line_comment in_block_comment s1)
        end
      else if is_quote ch then
        String ch (strip_go true (Some ch) in_line_comment in_block_comment s1)
      else
        match s1 with
        | String nxt s2 =>
            if chr_eq ch "/" && chr_eq nxt "/" then strip_go in_str str_ch true in_block_comment s2
            else if chr_eq ch "/" && chr_eq nxt "*" then strip_go in_str str_ch in_line_comment true s2
            else String ch (strip_go in_str str_ch in_line_comment in_block_comment s1)
        | EmptyString => String ch (strip_go in_str str_ch in_line_comment in_block_comment s1)
        end
  end.

Definition strip_comments (text : string) : string := strip_go false None false false text.

(* ------------------------------------------------------------------ *)
(** ** [_count_braces_outside_strings] *)

(** Note the source's control flow: inside a string, a character that is
    neither an escape nor the closing quote falls through to the quote and
    brace tests below. *)
Fixpoint count_braces_go (in_str : bool) (str_ch : option ascii) (s : string)
    (opens closes : nat) : nat * nat :=
  match s with
  | EmptyString => (opens, closes)
  | String ch s1 =>
      let fall_through (in_str : bool) :=
        if is_quote ch then count_braces_go true (Some ch) s1 opens closes
        else if chr_eq ch "{" then count_braces_go in_str str_ch s1 (S opens) closes
        else if chr_eq ch "}" then count_braces_go in_str str_ch s1 opens (S closes)
        else count_braces_go in_str str_ch s1 opens closes in
      if in_str then
        match s1 with
        | String _ s2 =>
            if chr_eq ch "\" then count_braces_go in_str str_ch s2 opens closes
            else if bool_decide (Some ch = str_ch) then count_braces_go false str_ch s1 opens closes
            else fall_through in_str
        | EmptyString =>
            if bool_decide (Some ch = str_ch) then count_braces_go false str_ch s1 opens closes
            else fall_through in_str
        end
      else fall_through in_str
  end.

Definition count_braces_outside_strings (line : string) : nat * nat :=
  count_braces_go false None line 0 0.

(* ------------------------------------------------------------------ *)
(** ** String helpers: [splitlines], [rstrip], [strip] of double quotes, [in] *)

(** Line boundaries of [str.splitlines] on ASCII: \n \r \r\n \v \f \x1c \x1d \x1e. *)
Definition is_line_break (c : ascii) : bool :=
  let n := nat_of_ascii c in ((10 <=? n) && (n <=? 13)) || ((28 <=? n) && (n <=? 30)).

(** [cur] is the current line, reversed. *)
Fixpoint splitlines_go (cur : string) (s : string) : list string :=
  match s with
  | EmptyString => match cur with EmptyString => [] | _ => [String.rev cur] end
  | String c s1 =>
      if is_line_break c then
        match s1 with
        | String c2 s2 =>
            if chr_eq c "013" && chr_eq c2 nl then String.rev cur :: splitlines_go EmptyString s2
            else String.rev cur :: splitlines_go EmptyString s1
        | EmptyString => String.rev cur :: splitlines_go EmptyString s1
        end
      else splitlines_go (String c cur) s1
  end.

Definition splitlines (s : string) : list string := splitlines_go EmptyString s.

Fixpoint lstrip_by (f : ascii -> bool) (s : string) : string :=
  match s with
  | String c s' => if f c then lstrip_by f s' else s
  | EmptyString => EmptyString
  end.

Definition rstrip_by (f : ascii -> bool) (s : string) : string :=
  String.rev (lstrip_by f (String.rev s)).

Definition rstrip (s : string) : string := rstrip_by is_space s.

Definition strip_dquote (s : string) : string :=
  let f c := chr_eq c "034" in rstrip_by f (lstrip_by f s).

(** [re.sub] of the pattern [\s+] by the empty string. *)
Fixpoint remove_spaces (s : string) : string :=
  match s with
  | String c s' => if is_space c then remove_spaces s' else String c (remove_spaces s')
  | EmptyString => EmptyString
  end.

Fixpoint starts_with (p s : string) : bool :=
  match p, s with
  | EmptyString, _ => true
  | String a p', String b s' => chr_eq a b && starts_with p' s'
  | String _ _, EmptyString => false
  end.

(** Python's [needle in hay]. *)
Fixpoint contains (needle hay : string) : bool :=
  starts_with needle hay ||
  match hay with
  | String _ hay' => contains needle hay'
  | EmptyString => false
  end.

Fixpoint join (sep : string) (l : list string) : string :=
  match l with
  | [] => EmptyString
  | [x] => x
  | x :: l' => x +:+ sep +:+ join sep l'
  end.

(* ------------------------------------------------------------------ *)
(** ** A backtracking matcher for the regular expressions of the module

    Patterns are written in continuation-passing style, so that the order
    in which alternatives and repetition counts are tried is the one of
    Python's [re] engine: the left branch of [|] first, greedy repetitions
    longest first, lazy ones shortest first. A match threads the remaining
    input and the capture groups set so far; backtracking restores both. *)

Definition caps := list (nat * string).
Definition kont := string -> caps -> option (string * caps).
Definition pat := string -> caps -> kont -> option (string * caps).

Definition p_eps : pat := fun s c k => k s c.

Definition p_cls (f : ascii -> bool) : pat := fun s c k =>
  match s with
  | String x s' => if f x then k s' c else None
  | EmptyString => None
  end.

Definition p_chr (a : ascii) : pat := p_cls (chr_eq a).

Definition p_seq (p q : pat) : pat := fun s c k => p s c (fun s' c' => q s' c' k).

Definition p_alt (p q : pat) : pat := fun s c k =>
  match p s c k with Some r => Some r | None => q s c k end.

(** [(...)?] is greedy: the group first, then the empty branch. *)
Definition p_opt (p : pat) : pat := p_alt p p_eps.

Fixpoint p_lit (w : string) : pat :=
  match w with
  | EmptyString => p_eps
  | String a w' => p_seq (p_chr a) (p_lit w')
  end.

(** [[class]*], greedy. *)
Fixpoint p_star (f : ascii -> bool) (s : string) (c : caps) (k : kont) : option (string * caps) :=
  match s with
  | String x s' =>
      if f x then match p_star f s' c k with Some r => Some r | None => k s c end
      else k s c
  | EmptyString => k s c
  end.

(** [[class]+], greedy. *)
Definition p_plus (f : ascii -> bool) : pat := p_seq (p_cls f) (p_star f).

(** [.*?] under [re.DOTALL]: lazy, any character. *)
Fixpoint p_lazy_any (s : string) (c : caps) (k : kont) : option (string * caps) :=
  match k s c with
  | Some r => Some r
  | None => match s with String _ s' => p_lazy_any s' c k | EmptyString => None end
  end.

(** A capture group: the text consumed between entry and exit. *)
Definition p_group (g : nat) (p : pat) : pat := fun s c k =>
  p s c (fun s' c' => k s' ((g, String.substring 0 (String.length s - String.length s') s) :: c')).

Definition is_word_opt (o : option ascii) : bool :=
  match o with Some x => is_word x | None => false end.

Definition head_chr (s : string) : option ascii :=
  match s with String x _ => Some x | EmptyString => None end.

(** [\b], given the character before the current position. *)
Definition p_wordb (prev : option ascii) : pat := fun s c k =>
  if Bool.eqb (is_word_opt prev) (is_word_opt (head_chr s)) then None else k s c.

Definition run_at (p : pat) (s : string) : option (string * caps) :=
  p s [] (fun s' c => Some (s', c)).

Fixpoint group (g : nat) (c : caps) : option string :=
  match c with
  | [] => None
  | (g', v) :: c' => if g =? g' then Some v else group g c'
  end.

(** [re.search]: the first position (left to right) where the pattern
    matches; the pattern receives the character before that position. *)
Fixpoint re_search (p : option ascii -> pat) (prev : option ascii) (s : string)
    : option (string * caps) :=
  match run_at (p prev) s with
  | Some r => Some r
  | None => match s with String x s' => re_search p (Some x) s' | EmptyString => None end
  end.

(** [re.finditer] for patterns that never match the empty string:
    after a match the scan resumes where the match ended ([skip] counts
    the characters of the match still to pass over). *)
Fixpoint finditer_go (p : option ascii -> pat) (prev : option ascii) (skip : nat) (s : string)
    : list caps :=
  match skip with
  | S skip' => match s with String x s' => finditer_go p (Some x) skip' s' | EmptyString => [] end
  | 0 =>
      match run_at (p prev) s with
      | Some (rest, c) =>
          let len := String.length s - String.length rest in
          match s with
          | String x s' => c :: finditer_go p (Some x) (len - 1) s'
          | EmptyString => [c]
          end
      | None => match s with String x s' => finditer_go p (Some x) 0 s' | EmptyString => [] end
      end
  end.

Definition finditer (p : option ascii -> pat) (s : string) : list caps :=
  finditer_go p None 0 s.

(** [^] without [re.MULTILINE]: only at the start of the string. *)
Definition p_caret (prev : option ascii) : pat := fun s c k =>
  match prev with None => k s c | Some _ => None end.

Definition fail_pat : pat := fun _ _ _ => None.

(* ------------------------------------------------------------------ *)
(** ** [NODE_OPEN_RE] *)

Definition is_label_ch (c : ascii) : bool :=
  is_word c || chr_eq c "-" || chr_eq c "." || chr_eq c "@".

Definition is_name_ch (c : ascii) : bool :=
  is_word c || chr_eq c "-" || chr_eq c "." || chr_eq c "," || chr_eq c "@" || chr_eq c "/".

Definition G_label := 1.
Definition G_name := 2.

(** The pattern, in the source's verbose layout:
    [^ \s* (?: (?P<label>[\w\-\.\@]+) \s* : \s* )?
     (?P<name> / | &[\w\-\.\@]+ | [\w\-\.\,\@/]+ ) \s* \{] *)
Definition NODE_OPEN_RE (prev : option ascii) : pat :=
  p_seq (p_caret prev)
  (p_seq (p_star is_space)
  (p_seq (p_opt (p_seq (p_group G_label (p_plus is_label_ch))
                 (p_seq (p_star is_space) (p_seq (p_chr ":") (p_star is_space)))))
  (p_seq (p_group G_name (p_alt (p_chr "/")
                         (p_alt (p_seq (p_chr "&") (p_plus is_label_ch))
                                (p_plus is_name_ch))))
  (p_seq (p_star is_space) (p_chr "{"))))).

(* ------------------------------------------------------------------ *)
(** ** [parse_dtsi_with_map] *)

(** A node record of the [nodes] dict; [end_line = None] is Python's [None]. *)
Record node := mk_node {
  n_label : option string;
  n_name : string;
  n_display : string;
  start_line : nat;
  end_line : option nat;
  n_path : string
}.

(** A stack frame. *)
Record frame := mk_frame {
  fr_id : nat;
  fr_display : string;
  brace_depth_at_open : Z;
  fr_path : string;
  fr_start : nat
}.

(** The loop variables. The node key [f"N{node_index}"] is represented by
    [node_index]; the Python list [stack] is kept with its top ([stack[-1]])
    at the head. *)
Record pstate := mk_pstate {
  stack : list frame;
  nodes : gmap nat node;
  edges : list (nat * nat);
  paths : gset string;
  brace_depth : Z;
  graph_lines : list string;
  node_index : nat
}.

Definition node_key (k : nat) : string := "N" +:+ str_of_nat k.

Definition set_end (idx : nat) (nd : node) : node :=
  mk_node (n_label nd) (n_name nd) (n_display nd) (start_line nd) (Some idx) (n_path nd).

(** [nodes[nid]["end_line"] = idx] for the node of [nid] (always present). *)
Definition set_end_line (nid idx : nat) (ns : gmap nat node) : gmap nat node :=
  alter (set_end idx) nid ns.

(** The [while stack:] loop closing frames whose depth-at-open exceeds the depth. *)
Fixpoint close_frames (idx : nat) (depth : Z) (stk : list frame) (ns : gmap nat node)
    : list frame * gmap nat node :=
  match stk with
  | [] => ([], ns)
  | top :: rest =>
      if (depth <? brace_depth_at_open top)%Z
      then close_frames idx depth rest (set_end_line (fr_id top) idx ns)
      else (stk, ns)
  end.

(** The end-of-input loop: every remaining frame gets [end_line = last_line]. *)
Fixpoint force_close (last_line : nat) (stk : list frame) (ns : gmap nat node) : gmap nat node :=
  match stk with
  | [] => ns
  | top :: rest => force_close last_line rest (set_end_line (fr_id top) last_line ns)
  end.

Definition opt_or (o : option string) (d : string) : string :=
  match o with Some x => x | None => d end.

(** Body of [if m:] for a matched line. *)
Definition open_node (st : pstate) (idx : nat) (line : string)
    (label : option string) (name : string) : pstate :=
  let display := opt_or label name in
  let node_id := node_index st in
  let parent_path := match stack st with top :: _ => fr_path top | [] => EmptyString end in
  let disp_norm := remove_spaces (strip_dquote display) in
  let path := match parent_path with
              | EmptyString => "/" +:+ disp_norm
              | _ => parent_path +:+ "/" +:+ disp_norm end in
  let nd := mk_node label name display idx None path in
  let gl1 := graph_lines st ++ [" " +:+ node_key node_id +:+ "[" +:+ String "034" display +:+ String "034" "]"] in
  let '(gl2, edges') :=
    match stack st with
    | top :: _ => (gl1 ++ [" " +:+ node_key (fr_id top) +:+ " --> " +:+ node_key node_id],
                   edges st ++ [(fr_id top, node_id)])
    | [] => (gl1, edges st)
    end in
  let gl3 := gl2 ++ [" click " +:+ node_key node_id +:+ " onNodeClick " +:+ String "034" display +:+ String "034" EmptyString] in
  let '(opens, closes) := count_braces_outside_strings line in
  let depth := (brace_depth st + Z.of_nat opens - Z.of_nat closes)%Z in
  mk_pstate (mk_frame node_id display depth path idx :: stack st)
            (<[node_id := nd]> (nodes st)) edges' ({[path]} ∪ paths st) depth gl3 (S node_id).

Definition match_node_open (line : string) : option (option string * string) :=
  match re_search NODE_OPEN_RE None line with
  | Some (_, c) => match group G_name c with Some name => Some (group G_label c, name) | None => None end
  | None => None
  end.

(** One iteration of [for idx, raw_line in enumerate(lines, start=1)]. *)
Definition match_or_count (st : pstate) (idx : nat) (line : string) : pstate :=
  match match_node_open line with
  | Some (label, name) => open_node st idx line label name
  | None =>
      let '(opens, closes) := count_braces_outside_strings line in
      mk_pstate (stack st) (nodes st) (edges st) (paths st)
                (brace_depth st + Z.of_nat opens - Z.of_nat closes)%Z
                (graph_lines st) (node_index st)
  end.

Definition step_line (st : pstate) (idx : nat) (raw_line : string) : pstate :=
  let line := rstrip raw_line in
  let st1 := match_or_count st idx line in
  let '(stk, ns) := close_frames idx (brace_depth st1) (stack st1) (nodes st1) in
  mk_pstate stk ns (edges st1) (paths st1) (brace_depth st1) (graph_lines st1) (node_index st1).

Fixpoint parse_lines (idx : nat) (lines : list string) (st : pstate) : pstate :=
  match lines with
  | [] => st
  | l :: ls => parse_lines (S idx) ls (step_line st idx l)
  end.

Definition init_graph_lines : list string :=
  ["%%{init: {'flowchart': {'useMaxWidth': false, 'htmlLabels': true}}}%%"; "graph TD"].

Definition init_pstate : pstate :=
  mk_pstate [] ∅ [] ∅ 0%Z init_graph_lines 0.

Record parse_result := mk_result {
  mermaid_code : string;
  r_nodes : gmap nat node;
  r_edges : list (nat * nat);
  r_paths : list string
}.

Definition sort_strings (l : list string) : list string := merge_sort String.le l.

Definition parse_dtsi_with_map (content : string) : parse_result :=
  let clean := strip_comments content in
  let lines := splitlines clean in
  let st := parse_lines 1 lines init_pstate in
  let ns := match lines with
            | [] => nodes st
            | _ => force_close (length lines) (stack st) (nodes st)
            end in
  mk_result (join (String nl EmptyString) (graph_lines st)) ns (edges st)
            (sort_strings (elements (paths st))).

(** [parse_dtsi_structure(content)["paths"]]: the set of the sorted list. *)
Definition structure_paths (content : string) : gset string :=
  list_to_set (r_paths (parse_dtsi_with_map content)).

Definition c4_input : string := "cpus { cpu0: cpu@0 { }; };".
(* ------------------------------------------------------------------ *)
(** ** Structural diff of [diff_view] *)

(** [sorted(list(sb - sa))] and [sorted(list(sa - sb))]. *)
Definition diff_paths (sa sb : gset string) : list string * list string :=
  (sort_strings (elements (sb ∖ sa)), sort_strings (elements (sa ∖ sb))).

(** The [tree_delta] of [diff_view] for two file contents. *)
Definition tree_delta (ca cb : string) : list string * list string :=
  diff_paths (structure_paths ca) (structure_paths cb).

(* ------------------------------------------------------------------ *)
(** ** [parse_overview_mermaid] *)

(** [s.split(sep)]: [cur] is the current piece, reversed. *)
Fixpoint split_go (sep : ascii) (cur : string) (s : string) : list string :=
  match s with
  | EmptyString => [String.rev cur]
  | String c s' =>
      if chr_eq c sep then String.rev cur :: split_go sep EmptyString s'
      else split_go sep (String c cur) s'
  end.

Definition split_on (sep : ascii) (s : string) : list string := split_go sep EmptyString s.

Definition nonempty (s : string) : bool :=
  match s with EmptyString => false | _ => true end.

Definition path_parts (p : string) : list string := filter nonempty (split_on "/" p).

Definition top_name_from_path (p : string) : option string :=
  match path_parts p with x :: _ => Some x | [] => None end.

Definition second_name_from_path (p : string) : option string :=
  match path_parts p with _ :: y :: _ => Some y | _ => None end.

(** [d[k] = d.get(k, 0) + 1] *)
Definition bump (k : string) (d : gmap string nat) : gmap string nat :=
  <[k := S (default 0 (d !! k))]> d.

(** The [for p in paths:] loop, building [(root_children, soc_children)]. *)
Fixpoint count_groups (ps : list string) (root soc : gmap string nat)
    : gmap string nat * gmap string nat :=
  match ps with
  | [] => (root, soc)
  | p :: ps' =>
      match top_name_from_path p with
      | None => count_groups ps' root soc
      | Some top =>
          let root' := bump top root in
          let soc' := if String.eqb top "soc" then
                        match second_name_from_path p with
                        | Some second => bump second soc
                        | None => soc
                        end
                      else soc in
          count_groups ps' root' soc'
      end
  end.

(** The sort key [(-count, name)]: [a] sorts before [b]. *)
Definition rank_le (a b : string * nat) : Prop :=
  snd b < snd a \/ (snd a = snd b /\ String.le (fst a) (fst b)).

Global Instance rank_le_dec : RelDecision rank_le.
Proof. intros a b. unfold rank_le. apply _. Defined.

Definition rank_groups (d : gmap string nat) : list (string * nat) :=
  merge_sort rank_le (map_to_list d).

Definition overview_summary (ps : list string) (max_root_children max_soc_children : nat)
    : list (string * nat) * list (string * nat) :=
  let '(root, soc) := count_groups ps ∅ ∅ in
  (take max_root_children (rank_groups root), take max_soc_children (rank_groups soc)).

(** [re.sub(r'[^a-zA-Z0-9_]', '_', name)] *)
Fixpoint mermaid_id (s : string) : string :=
  match s with
  | EmptyString => EmptyString
  | String c s' => String (if is_word c then c else "_"%char) (mermaid_id s')
  end.

Definition dq (s : string) : string := String "034" (s +:+ String "034" EmptyString).

Definition parse_overview_mermaid_with (content : string) (max_root_children max_soc_children : nat)
    : string :=
  let ps := r_paths (parse_dtsi_with_map content) in
  let '(root, soc) := count_groups ps ∅ ∅ in
  let '(root_sorted, soc_sorted) := overview_summary ps max_root_children max_soc_children in
  let header := ["%%{init: {'flowchart': {'useMaxWidth': false}}}%%"; "flowchart LR";
                 "  ROOT[" +:+ dq "/ (root)" +:+ "]"] in
  let hubs := flat_map (fun '(name, count) =>
                let nid := "R_" +:+ mermaid_id name in
                ["  " +:+ nid +:+ "[" +:+ dq (name +:+ "\n(" +:+ str_of_nat count +:+ " nodes)") +:+ "]";
                 "  ROOT --> " +:+ nid]) root_sorted in
  let soc_part :=
    if bool_decide (is_Some (root !! "soc")) && negb (bool_decide (soc_sorted = [])) then
      ["  subgraph SOC[" +:+ dq "/soc (expanded)" +:+ "]"]
      ++ map (fun '(name, count) =>
                "    SOC_" +:+ mermaid_id name +:+ "[" +:+ dq (name +:+ "\n(" +:+ str_of_nat count +:+ ")") +:+ "]")
             soc_sorted
      ++ ["  end"; "  R_soc --> SOC"]
      ++ map (fun '(name, _) => "  SOC --> SOC_" +:+ mermaid_id name) soc_sorted
    else [] in
  join (String nl EmptyString) (header ++ hubs ++ soc_part).

Definition parse_overview_mermaid (content : string) : string :=
  parse_overview_mermaid_with content 18 18.

(* ------------------------------------------------------------------ *)
(** ** [extract_idle_info] *)

Definition G_idx := 1.
Definition G_body := 2.
Definition G_val := 3.

(** [\bcpu(?P<idx>\d+)\s*:\s*cpu@\d+\s*\{] *)
Definition CPU_LABEL_RE (prev : option ascii) : pat :=
  p_seq (p_wordb prev) (p_seq (p_lit "cpu") (p_seq (p_group G_idx (p_plus is_digit))
  (p_seq (p_star is_space) (p_seq (p_chr ":") (p_seq (p_star is_space)
  (p_seq (p_lit "cpu@") (p_seq (p_plus is_digit) (p_seq (p_star is_space) (p_chr "{"))))))))).

(** [\bcpu_pd(?P<idx>\d+)\s*:\s*power-domain-cpu\d+\s*\{] *)
Definition CPU_PD_RE (prev : option ascii) : pat :=
  p_seq (p_wordb prev) (p_seq (p_lit "cpu_pd") (p_seq (p_group G_idx (p_plus is_digit))
  (p_seq (p_star is_space) (p_seq (p_chr ":") (p_seq (p_star is_space)
  (p_seq (p_lit "power-domain-cpu") (p_seq (p_plus is_digit) (p_seq (p_star is_space) (p_chr "{"))))))))).

Definition is_block_name_ch (c : ascii) : bool :=
  is_word c || chr_eq c "-" || chr_eq c "@" || chr_eq c ".".

(** [(?P<label>cpu_sleep|cluster_sleep)\s*:\s*[\w\-@\.]+\s*\{(?P<body>.*?)\n\s*\};]
    with [re.DOTALL]. *)
Definition IDLE_BLOCK_RE (_ : option ascii) : pat :=
  p_seq (p_group G_label (p_alt (p_lit "cpu_sleep") (p_lit "cluster_sleep")))
  (p_seq (p_star is_space) (p_seq (p_chr ":") (p_seq (p_star is_space)
  (p_seq (p_plus is_block_name_ch) (p_seq (p_star is_space) (p_seq (p_chr "{")
  (p_seq (p_group G_body p_lazy_any)
  (p_seq (p_chr nl) (p_seq (p_star is_space) (p_lit "};")))))))))).

(** [arm,psci-suspend-param\s*=\s*<(?P<val>[^>]+)>\s*;] *)
Definition PSCI_PARAM_RE (_ : option ascii) : pat :=
  p_seq (p_lit "arm,psci-suspend-param") (p_seq (p_star is_space) (p_seq (p_chr "=")
  (p_seq (p_star is_space) (p_seq (p_chr "<")
  (p_seq (p_group G_val (p_plus (fun c => negb (chr_eq c ">"))))
  (p_seq (p_chr ">") (p_seq (p_star is_space) (p_chr ";")))))))).

(** [\bmpm\s*:\s*interrupt-controller] *)
Definition MPM_RE (prev : option ascii) : pat :=
  p_seq (p_wordb prev) (p_seq (p_lit "mpm") (p_seq (p_star is_space)
  (p_seq (p_chr ":") (p_seq (p_star is_space) (p_lit "interrupt-controller"))))).

(** [str.strip()] *)
Definition py_strip (s : string) : string := rstrip (lstrip_by is_space s).

(** [sorted({int(m.group("idx")) for m in ...})] *)
Definition idx_set (ms : list caps) : list nat :=
  merge_sort Nat.le (remove_dups (map (fun c => int_of_digits (default EmptyString (group G_idx c))) ms)).

Record idle_info := mk_idle {
  found : bool;
  cpu_idxs : list nat;
  pd_idxs : list nat;
  cpu_sleep_param : option string;
  cluster_sleep_param : option string;
  has_cluster_pd : bool;
  has_mpm : bool
}.

(** The returned dict: [{"found": False}] alone, or the full record. *)
Inductive idle_result :=
  | IdleNotFound
  | IdleInfo (i : idle_info).

(** The [for m in _IDLE_BLOCK_RE.finditer(clean)] loop. *)
Fixpoint sleep_params (ms : list caps) (cpu_p cluster_p : option string)
    : option string * option string :=
  match ms with
  | [] => (cpu_p, cluster_p)
  | c :: ms' =>
      let body := default EmptyString (group G_body c) in
      match re_search PSCI_PARAM_RE None body with
      | Some (_, pc) =>
          let v := py_strip (default EmptyString (group G_val pc)) in
          match group G_label c with
          | Some "cpu_sleep" => sleep_params ms' (Some v) cluster_p
          | Some "cluster_sleep" => sleep_params ms' cpu_p (Some v)
          | _ => sleep_params ms' cpu_p cluster_p
          end
      | None => sleep_params ms' cpu_p cluster_p
      end
  end.

(** Python truthiness of an optional string. *)
Definition truthy (o : option string) : bool :=
  match o with Some s => nonempty s | None => false end.

Definition matched_cpu_idxs (clean : string) : list nat := idx_set (finditer CPU_LABEL_RE clean).
Definition matched_pd_idxs (clean : string) : list nat := idx_set (finditer CPU_PD_RE clean).

Definition extract_idle_info (content : string) : idle_result :=
  let clean := strip_comments content in
  if negb (contains "domain-idle-states" clean) && negb (contains "idle-states" clean)
  then IdleNotFound
  else
    let cpu_idxs := matched_cpu_idxs clean in
    let pd_idxs := matched_pd_idxs clean in
    let '(cpu_p, cluster_p) := sleep_params (finditer IDLE_BLOCK_RE clean) None None in
    let has_cluster_pd := contains "cluster_pd:" clean in
    let has_mpm := bool_decide (is_Some (re_search MPM_RE None clean)) in
    let found := truthy cpu_p || truthy cluster_p
                 || (negb (bool_decide (cpu_idxs = [])) && has_cluster_pd) in
    IdleInfo (mk_idle found
                (if bool_decide (cpu_idxs = []) then [0; 1; 2; 3] else cpu_idxs)
                (if bool_decide (pd_idxs = []) then [0; 1; 2; 3] else pd_idxs)
                cpu_p cluster_p has_cluster_pd has_mpm).


(* ------------------------------------------------------------------ *)
(** ** [parse_idle_mermaid] *)

(** The em dash U+2014, UTF-8 encoded. *)
Definition em_dash : string := String "226" (String "128" (String "148" EmptyString)).

Definition or_dash (o : option string) : string :=
  match o with Some s => if nonempty s then s else em_dash | None => em_dash end.

Definition cpu_decl (i : nat) : string :=
  "    CPU" +:+ str_of_nat i +:+ "[" +:+ dq ("CPU" +:+ str_of_nat i) +:+ "]".
Definition pd_decl (i : nat) : string :=
  "    PD" +:+ str_of_nat i +:+ "[" +:+ dq ("cpu_pd" +:+ str_of_nat i) +:+ "]".
Definition cpu_to_pd (i : nat) : string :=
  "  CPU" +:+ str_of_nat i +:+ " --> PD" +:+ str_of_nat i.
Definition cpu_to_idle (i : nat) : string :=
  "  CPU" +:+ str_of_nat i +:+ " --> CPU_IDLE".
Definition pd_to_idle (i : nat) : string :=
  "  PD" +:+ str_of_nat i +:+ " --> CPU_IDLE".

Definition idle_mermaid_lines (info : idle_info) : list string :=
  let cpus := take 8 (cpu_idxs info) in
  let pds := take 8 (pd_idxs info) in
  ["%%{init: {'flowchart': {'useMaxWidth': false}}}%%"; "flowchart TB";
   "  subgraph CPU_Layer[" +:+ dq "CPU Cores" +:+ "]"]
  ++ map cpu_decl cpus
  ++ ["  end";
      "  CPU_IDLE[" +:+ dq ("CPU Idle State\npower-collapse\npsci=" +:+ or_dash (cpu_sleep_param info)) +:+ "]";
      "  subgraph CPU_PD[" +:+ dq "CPU Power Domains" +:+ "]"]
  ++ map pd_decl pds
  ++ ["  end";
      "  CLUSTER_IDLE[" +:+ dq ("Cluster Idle State\ncluster-sleep\npsci=" +:+ or_dash (cluster_sleep_param info)) +:+ "]";
      "  CLUSTER_PD[" +:+ dq "cluster_pd" +:+ "]";
      "  MPM[" +:+ dq "MPM\n(System Power Manager)" +:+ "]"]
  ++ map (fun i => if bool_decide (i ∈ pds) then cpu_to_pd i else cpu_to_idle i) cpus
  ++ map pd_to_idle pds
  ++ ["  CPU_IDLE --> CLUSTER_IDLE"; "  CLUSTER_IDLE --> CLUSTER_PD"; "  CLUSTER_PD --> MPM"].

(** [""] when not found, else the joined lines. *)
Definition parse_idle_mermaid (content : string) : string :=
  match extract_idle_info content with
  | IdleInfo info => if found info then join (String nl EmptyString) (idle_mermaid_lines info) else EmptyString
  | IdleNotFound => EmptyString
  end.

Definition c7_text : string :=
  "cpu_sleep: cpu-sleep-0 {" +:+ String nl
  ("  arm,psci-suspend-param = <0x40000004>;" +:+ String nl
  ("};" +:+ String nl ("cpu0: cpu@0 { domain-idle-states = <&cpu_sleep>; };" +:+ String nl EmptyString))).
Definition c1_input : string := "/*" +:+ String nl "*/".

Definition c1_downstream : string :=
  "/* c" +:+ String nl ("*/" +:+ String nl ("foo {" +:+ String nl "};")).

Definition c2_input : string := "foo { };" +:+ String nl "bar;".

Definition c7_blank_param : string :=
  "idle-states {" +:+ String nl
  ("cpu_sleep: cpu-sleep-0 {" +:+ String nl
  ("  arm,psci-suspend-param = < >;" +:+ String nl
  ("};" +:+ String nl ("};" +:+ String nl EmptyString)))).

Fixpoint count_char (a : ascii) (s : string) : nat :=
  match s with
  | EmptyString => 0
  | String c s' => (if chr_eq c a then 1 else 0) + count_char a s'
  end.

(** ** Reading back the lines of the idle diagram

    [classify] recognises the five families of index-carrying lines that
    [parse_idle_mermaid] emits, and reads their CPU or power-domain index
    back; it is the observation used to state which indices a diagram
    mentions. *)

Inductive line_kind :=
  | K_cpu_decl (i : nat)
  | K_pd_decl (i : nat)
  | K_cpu_pd (i : nat)
  | K_cpu_idle (i : nat)
  | K_pd_idle (i : nat)
  | K_other.

Fixpoint strip_prefix (p s : string) : option string :=
  match p, s with
  | EmptyString, _ => Some s
  | String a p', String b s' => if chr_eq a b then strip_prefix p' s' else None
  | String _ _, EmptyString => None
  end.

Fixpoint span_digits (s : string) : string * string :=
  match s with
  | String c s' =>
      if is_digit c then let '(d, r) := span_digits s' in (String c d, r) else (EmptyString, s)
  | EmptyString => (EmptyString, EmptyString)
  end.

Definition classify (l : string) : line_kind :=
  match strip_prefix "    CPU" l with
  | Some r =>
      let '(d, r') := span_digits r in
      if nonempty d && starts_with "[" r' then K_cpu_decl (int_of_digits d) else K_other
  | None =>
      match strip_prefix "    PD" l with
      | Some r =>
          let '(d, r') := span_digits r in
          if nonempty d && starts_with "[" r' then K_pd_decl (int_of_digits d) else K_other
      | None =>
          match strip_prefix "  CPU" l with
          | Some r =>
              let '(d, r') := span_digits r in
              if nonempty d then
                if String.eqb r' " --> CPU_IDLE" then K_cpu_idle (int_of_digits d)
                else if starts_with " --> PD" r' then K_cpu_pd (int_of_digits d)
                else K_other
              else K_other
          | None =>
              match strip_prefix "  PD" l with
              | Some r =>
                  let '(d, r') := span_digits r in
                  if nonempty d && String.eqb r' " --> CPU_IDLE" then K_pd_idle (int_of_digits d)
                  else K_other
              | None => K_other
              end
          end
      end
  end.

Fixpoint all_digits (s : string) : bool :=
  match s with
  | String c s' => is_digit c && all_digits s'
  | EmptyString => true
  end.

(** ** Invariant of the hierarchy builder *)

(** The invariant of the line loop after line [m]: every node starts at or
    before line [m]; a node without an end line is on the open stack; an
    end line, once set, is not before the start line. *)
Definition end_inv (m : nat) (stk : list frame) (ns : gmap nat node) : Prop :=
  forall k nd, ns !! k = Some nd ->
    start_line nd <= m /\
    (end_line nd = None -> k ∈ map fr_id stk) /\
    (forall e, end_line nd = Some e -> start_line nd <= e).

(** ** Populations of the summary groups *)

(** Number of paths whose first non-empty segment is [n]. *)
Definition group_pop (ps : list string) (n : string) : nat :=
  length (filter (fun p => top_name_from_path p = Some n) ps).

(** The distinct first segments, in order of appearance. *)
Definition top_groups (ps : list string) : list string :=
  remove_dups (omap top_name_from_path ps).

Definition soc_second (p : string) : option string :=
  if bool_decide (top_name_from_path p = Some "soc") then second_name_from_path p else None.

(** Number of paths under [soc] whose second segment is [n]. *)
Definition soc_pop (ps : list string) (n : string) : nat :=
  length (filter (fun p => soc_second p = Some n) ps).

Definition soc_groups (ps : list string) : list string :=
  remove_dups (omap soc_second ps).

(** [l] lists the top [K] groups of [groups], each with its population,
    ranked by descending population and then ascending name. *)
Definition ranked_top_k (pop : string -> nat) (groups : list string) (K : nat)
    (l : list (string * nat)) : Prop :=
  (forall n c, (n, c) ∈ l -> n ∈ groups /\ c = pop n) /\
  NoDup (map fst l) /\
  Sorted rank_le l /\
  length l = Nat.min K (length groups) /\
  (forall n, n ∈ groups -> n ∉ map fst l -> forall e, e ∈ l -> rank_le e (n, pop n)).

(** All characters of [s] satisfy [f]. *)
Fixpoint str_forall (f : ascii -> bool) (s : string) : bool :=
  match s with
  | EmptyString => true
  | String c s' => f c && str_forall f s'
  end.

(** [s] holds none of the line boundaries of [splitlines]. *)
Definition no_line_break (s : string) : bool := str_forall (fun c => negb (is_line_break c)) s.

(* ------------------------------------------------------------------ *)
(** ** [routes/main.py]: [create], [_safe_dtsi_path], [preview] *)

(** [re.sub(r"[^a-zA-Z0-9\_-]", "", name)] *)
Fixpoint sanitize_name (s : string) : string :=
  match s with
  | EmptyString => EmptyString
  | String c s' => if is_word c || chr_eq c "-" then String c (sanitize_name s') else sanitize_name s'
  end.

(** The effects of [create]: the directory made under [PROJECTS_DIR]
    ([mkdir(parents=True, exist_ok=True)]), if any, and the redirect
    target. [form_name] is [request.form.get("name")]; a missing field is
    read as the default [""]. *)
Definition create (form_name : option string) : option string * string :=
  let name := sanitize_name (default EmptyString form_name) in
  if nonempty name then (Some name, "/project/" +:+ name) else (None, "/").

(** [PurePosixPath(filename).name]: the path is split on [/], empty and
    [.] components are dropped, and the name is the last remaining
    component, or [""] when there is none. *)
Definition path_name (s : string) : string :=
  default EmptyString (last (filter (fun x => nonempty x && negb (String.eqb x ".")) (split_on "/" s))).

(** [s.endswith(suf)] *)
Definition ends_with (suf s : string) : bool := starts_with (String.rev suf) (String.rev s).

(** An HTTP handler's outcome: a value, or [abort(code, msg)]. *)
Inductive http_result (A : Type) :=
  | Ok (a : A)
  | Abort (code : nat) (msg : string).
Arguments Ok {A} a.
Arguments Abort {A} code msg.

(** [_safe_dtsi_path]. [dts_dir] is the rendered directory path
    [PROJECTS_DIR/project/linux/arch/arm64/boot/dts/qcom]; [path_exists]
    answers [Path.exists()]; [dts_dir / fn] for a name [fn] without [/] is
    [dts_dir] followed by [/] and [fn]. *)
Definition safe_dtsi_path (path_exists : string -> bool) (dts_dir filename : string)
    : http_result string :=
  let fn := path_name filename in
  if negb (ends_with ".dtsi" fn) then Abort 400 "Invalid filename"
  else
    let fpath := dts_dir +:+ "/" +:+ fn in
    if negb (path_exists fpath) then Abort 404 "File not found"
    else Ok fpath.

(** The [total_lines] and [head] fields of [preview]. *)
Definition preview (content : string) : nat * string :=
  let lines := splitlines content in
  (length lines, join (String nl EmptyString) (take 220 lines)).

(* ------------------------------------------------------------------ *)
(** ** [services/git_service.py]: the clone progress table *)

(** A value of the [STATE] dict. *)
Record clone_state := mk_cstate {
  cs_status : string;
  cs_percent : nat;
  cs_log : string
}.

Definition idle_state : clone_state := mk_cstate "idle" 0 EmptyString.

Definition get_state (st : gmap string clone_state) (name : string) : clone_state :=
  default idle_state (st !! name).

Definition update_state (st : gmap string clone_state) (name status : string) (percent : nat)
    (log : string) : gmap string clone_state :=
  <[name := mk_cstate status percent log]> st.

(** [(\d{1,3})%]; the repetition is greedy: three digits, then two, then one. *)
Definition PROGRESS_RE (_ : option ascii) : pat :=
  p_seq (p_group 1 (p_seq (p_cls is_digit) (p_opt (p_seq (p_cls is_digit) (p_opt (p_cls is_digit))))))
        (p_chr "%").

(** The [for line in process.stdout:] loop of [run_sparse_checkout]
    (the writes to the log file are not modelled). *)
Fixpoint progress_loop (name : string) (out : list string) (st : gmap string clone_state)
    : gmap string clone_state :=
  match out with
  | [] => st
  | line :: out' =>
      let st' := match re_search PROGRESS_RE None line with
                 | Some (_, c) =>
                     update_state st name "cloning" (int_of_digits (default EmptyString (group 1 c)))
                                  (py_strip line)
                 | None => st
                 end in
      progress_loop name out' st'
  end.

(** How a run of [run_sparse_checkout] went: an exception before the
    [try] (from [rmtree] or [mkdir]), an exception inside the [try] with
    its message [str(e)], or the [git pull] completed with its output
    lines and return code. *)
Inductive git_run :=
  | SetupRaised
  | Raised (msg : string)
  | Pulled (out : list string) (returncode : Z).

(** The effect of [run_sparse_checkout] on [STATE]. An exception inside the
    [try] is caught and its [update_state] overwrites the entry of [name],
    whatever progress was recorded before it. *)
Definition run_sparse_checkout (name : string) (r : git_run) (st : gmap string clone_state)
    : gmap string clone_state :=
  match r with
  | SetupRaised => st
  | _ =>
      let st := update_state st name "cloning" 0 "Starting..." in
      match r with
      | Raised msg => update_state st name "error" 0 msg
      | Pulled out rc =>
          let st := progress_loop name out st in
          if (rc =? 0)%Z then update_state st name "ready" 100 "Ready"
          else update_state st name "error" 0 "Git Error"
      | SetupRaised => st
      end
  end.

(* ------------------------------------------------------------------ *)
(** ** Relations and inputs used by the properties of the whole program *)

(** A relation between the position and captures a pattern starts from
    and the ones it hands to its continuation. *)
Definition mrel := string -> caps -> string -> caps -> Prop.

(** [sound p R]: every successful run of [p] hands its continuation a
    position and capture list related by [R] to the ones it started from. *)
Definition sound (p : pat) (R : mrel) : Prop :=
  forall s c k r, p s c k = Some r -> exists s' c', R s c s' c' /\ k s' c' = Some r.

Definition suffix_rel : mrel := fun s _ s' _ => exists w, s = w +:+ s'.

(** Patterns that only move forward. *)
Definition consumes (p : pat) : Prop := sound p suffix_rel.

(** The pattern has moved past a [{]. *)
Definition brace_rel : mrel := fun s _ s' _ => exists w, s = w +:+ String "{" s'.

(** Line bounds kept by the parse loop after [m] lines. *)
Definition line_inv (lines : list string) (m : nat) (ns : gmap nat node) : Prop :=
  forall k nd, ns !! k = Some nd ->
    1 <= start_line nd <= m /\
    (forall e, end_line nd = Some e -> e <= m) /\
    exists l, lines !! (start_line nd - 1) = Some l /\ 0 < count_char "{" l.

(** The path and display name of each node. *)
Definition path_display (ns : gmap nat node) : gmap nat (string * string) :=
  (fun nd => (n_path nd, n_display nd)) <$> ns.

(** Shape of the tree built so far: node ids [0 .. ni-1], the open frames,
    the edges (parent id below child id, one parent per child), the path
    set, and each path built from the parent's path and the display name. *)
Definition tree_inv (ni : nat) (stk : list frame) (E : list (nat * nat)) (ps : gset string)
    (P : gmap nat (string * string)) : Prop :=
  (forall k, is_Some (P !! k) <-> k < ni) /\
  (forall f, f ∈ stk -> exists d, P !! fr_id f = Some (fr_path f, d)) /\
  (forall p c, (p, c) ∈ E -> p < c /\ c < ni) /\
  NoDup (map snd E) /\
  (forall x, x ∈ ps <-> exists k d, P !! k = Some (x, d)) /\
  (forall k x d, P !! k = Some (x, d) ->
     (exists t, x = String "/" t) /\
     ((exists p x' d', (p, k) ∈ E /\ P !! p = Some (x', d') /\
                       x = x' +:+ "/" +:+ remove_spaces (strip_dquote d)) \/
      ((forall p, (p, k) ∉ E) /\ x = "/" +:+ remove_spaces (strip_dquote d)))).

(** The characters kept by the [create] route: [A-Za-z0-9_-]. *)
Definition name_char (c : ascii) : bool := is_word c || chr_eq c "-".

(** The pattern has consumed between [lo] and [hi] decimal digits. *)
Definition digits_rel (lo hi : nat) : mrel := fun s c s' c' =>
  c' = c /\ exists w, s = w +:+ s' /\ all_digits w = true /\ lo <= String.length w <= hi.

(** A match of [(\d{1,3})%]: group 1 holds one to three digits, then [%]. *)
Definition progress_rel : mrel := fun s c s' c' =>
  exists w, s = w +:+ String "%" s' /\ c' = (1, w) :: c /\
            all_digits w = true /\ 1 <= String.length w <= 3.

(** Sample inputs. *)
Definition soc_gcc_input : string :=
  "soc {" +:+ String nl ("gcc {" +:+ String nl ("};" +:+ String nl "};")).

Definition quoted_brace_line : string :=
  "label = " +:+ String "034" ("{" +:+ String "034" ";").

(* ================================================================== *)
(** * Properties *)

(** ** Lexical preprocessor *)

(** C1 (code_bug). A block comment spanning a line break loses the line
    break: [_strip_comments] of the two-line text [/*], [*/] is empty, so
    the output has fewer newlines than the input; downstream, the node
    [foo] opened on line 3 of [c1_downstream] is recorded at line 2. *)
Theorem strip_comments_block_drops_newline :
  strip_comments c1_input = EmptyString /\
  count_char nl c1_input = 1 /\ count_char nl (strip_comments c1_input) = 0 /\
  map (fun '(_, nd) => start_line nd) (map_to_list (r_nodes (parse_dtsi_with_map c1_downstream))) = [2].
Proof. vm_compute. repeat split. Qed.

(** ** Hierarchy builder *)

(** C2 (code_bug). A node opened and closed on line 1 of [c2_input] keeps
    [brace_depth_at_open = 0], is never closed by the per-line check and
    gets [end_line = 2] from the end-of-input fallback. *)
Theorem same_line_node_end_line :
  map_to_list (r_nodes (parse_dtsi_with_map c2_input)) =
    [(0, mk_node None "foo" "foo" 1 (Some 2) "/foo")].
Proof. vm_compute. reflexivity. Qed.

(** C4, counterexample: the single-line input yields one node, not two. *)
Lemma scenario1_not_two_nodes :
  ~ (map_size (r_nodes (parse_dtsi_with_map c4_input)) = 2 /\
     length (r_edges (parse_dtsi_with_map c4_input)) = 1).
Proof. vm_compute. intros [H _]. discriminate H. Qed.

(** C4 (amended). Parsing [cpus { cpu0: cpu@0 { }; };] detects only the
    first node opening of the line: one node [/cpus] spanning line 1 and
    no edge. *)
Theorem scenario1_single_node :
  map_to_list (r_nodes (parse_dtsi_with_map c4_input)) =
    [(0, mk_node None "cpus" "cpus" 1 (Some 1) "/cpus")] /\
  r_edges (parse_dtsi_with_map c4_input) = [] /\
  r_paths (parse_dtsi_with_map c4_input) = ["/cpus"].
Proof. vm_compute. repeat split. Qed.

(** ** Idle-topology extractor *)

(** C6. Without [domain-idle-states] and [idle-states] in the stripped text
    the extractor returns the bare [{"found": False}]. *)
Theorem extract_idle_info_short_circuit (content : string) :
  contains "domain-idle-states" (strip_comments content) = false ->
  contains "idle-states" (strip_comments content) = false ->
  extract_idle_info content = IdleNotFound.
Proof.
  intros Hd Hi. unfold extract_idle_info. cbv zeta. rewrite Hd, Hi. reflexivity.
Qed.

Lemma extract_idle_info_short_circuit_witness :
  contains "domain-idle-states" (strip_comments c4_input) = false /\
  contains "idle-states" (strip_comments c4_input) = false /\
  extract_idle_info c4_input = IdleNotFound.
Proof.
  assert (Hd : contains "domain-idle-states" (strip_comments c4_input) = false) by reflexivity.
  assert (Hi : contains "idle-states" (strip_comments c4_input) = false) by reflexivity.
  split; [exact Hd | split; [exact Hi | exact (extract_idle_info_short_circuit c4_input Hd Hi)]].
Defined.

Lemma extract_idle_info_cases (content : string) :
  extract_idle_info content = IdleNotFound \/
  exists cpu_p cluster_p,
    sleep_params (finditer IDLE_BLOCK_RE (strip_comments content)) None None = (cpu_p, cluster_p) /\
    extract_idle_info content =
      IdleInfo (mk_idle
        (truthy cpu_p || truthy cluster_p
         || (negb (bool_decide (matched_cpu_idxs (strip_comments content) = []))
             && contains "cluster_pd:" (strip_comments content)))
        (if bool_decide (matched_cpu_idxs (strip_comments content) = []) then [0; 1; 2; 3]
         else matched_cpu_idxs (strip_comments content))
        (if bool_decide (matched_pd_idxs (strip_comments content) = []) then [0; 1; 2; 3]
         else matched_pd_idxs (strip_comments content))
        cpu_p cluster_p (contains "cluster_pd:" (strip_comments content))
        (bool_decide (is_Some (re_search MPM_RE None (strip_comments content))))).
Proof.
  unfold extract_idle_info. cbv zeta.
  destruct (negb _ && negb _); [left; reflexivity | right].
  destruct (sleep_params _ None None) as [cpu_p cluster_p].
  exists cpu_p, cluster_p. split; reflexivity.
Qed.

(** C7, counterexample: a [cpu_sleep] block whose parameter is blank is
    captured as the empty string, and [found] is false. *)
Lemma idle_found_blank_param :
  exists i, extract_idle_info c7_blank_param = IdleInfo i /\
            cpu_sleep_param i = Some EmptyString /\ found i = false.
Proof. eexists. split; [vm_compute; reflexivity | vm_compute; split; reflexivity]. Qed.

(** C7 (amended). Whenever the extractor gets past the marker test,
    [found] holds exactly when a non-empty (after trimming) sleep parameter
    was captured, or some CPU index was matched and [cluster_pd:] occurs;
    on [c7_text] it is true with [cpu_sleep_param = "0x40000004"]. *)
Theorem idle_found_iff (content : string) (i : idle_info) :
  extract_idle_info content = IdleInfo i ->
  (found i = true <->
     truthy (cpu_sleep_param i) = true \/ truthy (cluster_sleep_param i) = true \/
     (matched_cpu_idxs (strip_comments content) <> [] /\ has_cluster_pd i = true)) /\
  (exists j, extract_idle_info c7_text = IdleInfo j /\ found j = true /\
             cpu_sleep_param j = Some "0x40000004").
Proof.
  intros H. split.
  - destruct (extract_idle_info_cases content) as [H' | (cp & clp & _ & H')];
      rewrite H' in H; [discriminate H|]. injection H as <-. simpl.
    rewrite !orb_true_iff, andb_true_iff, negb_true_iff, bool_decide_eq_false. tauto.
  - eexists. split; [vm_compute; reflexivity | vm_compute; split; reflexivity].
Qed.

Lemma idle_found_iff_witness :
  exists i, extract_idle_info c7_text = IdleInfo i /\ found i = true.
Proof.
  exists (mk_idle true [0] [0; 1; 2; 3] (Some "0x40000004") None false false).
  assert (H : extract_idle_info c7_text =
              IdleInfo (mk_idle true [0] [0; 1; 2; 3] (Some "0x40000004") None false false))
    by (vm_compute; reflexivity).
  split; [exact H|].
  apply (idle_found_iff c7_text _ H). left. reflexivity.
Defined.

(** C8. The returned CPU index list is the matched one, or [0;1;2;3] when
    none was matched; likewise for the power-domain indices. *)
Theorem idle_default_indices (content : string) (i : idle_info) :
  extract_idle_info content = IdleInfo i ->
  (matched_cpu_idxs (strip_comments content) = [] -> cpu_idxs i = [0; 1; 2; 3]) /\
  (matched_cpu_idxs (strip_comments content) <> [] -> cpu_idxs i = matched_cpu_idxs (strip_comments content)) /\
  (matched_pd_idxs (strip_comments content) = [] -> pd_idxs i = [0; 1; 2; 3]) /\
  (matched_pd_idxs (strip_comments content) <> [] -> pd_idxs i = matched_pd_idxs (strip_comments content)).
Proof.
  intros H.
  destruct (extract_idle_info_cases content) as [H' | (cp & clp & _ & H')];
    rewrite H' in H; [discriminate H|]. injection H as <-. simpl.
  repeat split; intros E;
    [rewrite bool_decide_eq_true_2 by exact E | rewrite bool_decide_eq_false_2 by exact E
    | rewrite bool_decide_eq_true_2 by exact E | rewrite bool_decide_eq_false_2 by exact E];
    reflexivity.
Qed.

Lemma idle_default_indices_witness :
  exists i, extract_idle_info c7_text = IdleInfo i /\ pd_idxs i = [0; 1; 2; 3].
Proof.
  exists (mk_idle true [0] [0; 1; 2; 3] (Some "0x40000004") None false false).
  assert (H : extract_idle_info c7_text =
              IdleInfo (mk_idle true [0] [0; 1; 2; 3] (Some "0x40000004") None false false))
    by (vm_compute; reflexivity).
  split; [exact H|].
  apply (proj1 (proj2 (proj2 (idle_default_indices c7_text _ H)))). vm_compute. reflexivity.
Defined.

(** ** Structural diff *)

Lemma sort_strings_perm (l : list string) : sort_strings l ≡ₚ l.
Proof. apply merge_sort_Permutation. Qed.

Lemma sort_strings_sorted (l : list string) : Sorted String.le (sort_strings l).
Proof. apply Sorted_merge_sort. apply _. Qed.

Lemma sort_elements_spec (X : gset string) :
  (forall p, p ∈ sort_strings (elements X) <-> p ∈ X) /\
  Sorted String.le (sort_strings (elements X)) /\ NoDup (sort_strings (elements X)).
Proof.
  split; [|split].
  - intros p. rewrite (sort_strings_perm (elements X)). apply elem_of_elements.
  - apply sort_strings_sorted.
  - rewrite (sort_strings_perm (elements X)). apply NoDup_elements.
Qed.

(** C5. [added] is [P_b - P_a] and [removed] is [P_a - P_b], each sorted
    in ascending string order without repetition; equal path sets give
    two empty lists. *)
Theorem diff_paths_spec (sa sb : gset string) :
  (forall p, p ∈ (diff_paths sa sb).1 <-> p ∈ sb /\ p ∉ sa) /\
  (forall p, p ∈ (diff_paths sa sb).2 <-> p ∈ sa /\ p ∉ sb) /\
  Sorted String.le (diff_paths sa sb).1 /\ NoDup (diff_paths sa sb).1 /\
  Sorted String.le (diff_paths sa sb).2 /\ NoDup (diff_paths sa sb).2 /\
  (sa = sb -> (diff_paths sa sb).1 = [] /\ (diff_paths sa sb).2 = []).
Proof.
  unfold diff_paths; simpl.
  destruct (sort_elements_spec (sb ∖ sa)) as (Ha1 & Ha2 & Ha3).
  destruct (sort_elements_spec (sa ∖ sb)) as (Hr1 & Hr2 & Hr3).
  split; [|split; [|split; [|split; [|split; [|split]]]]]; try assumption.
  - intros p. rewrite Ha1. set_solver.
  - intros p. rewrite Hr1. set_solver.
  - intros <-. rewrite difference_diag_L, elements_empty. split; reflexivity.
Qed.

(** ** End lines of the hierarchy *)

Lemma end_inv_mono m m' stk ns : m <= m' -> end_inv m stk ns -> end_inv m' stk ns.
Proof.
  intros Hle H k nd Hk. destruct (H k nd Hk) as (H1 & H2 & H3). split; [lia | auto].
Qed.

Lemma end_inv_pop m top rest ns :
  end_inv m (top :: rest) ns -> end_inv m rest (set_end_line (fr_id top) m ns).
Proof.
  intros H k nd Hk. unfold set_end_line in Hk.
  destruct (decide (k = fr_id top)) as [-> | Hne].
  - rewrite lookup_alter_eq in Hk.
    destruct (ns !! fr_id top) as [nd0 |] eqn:E; simpl in Hk; [|discriminate Hk].
    injection Hk as <-. destruct (H _ _ E) as (H1 & _ & _). simpl.
    split; [exact H1|]. split; [discriminate|]. intros e He. injection He as <-. exact H1.
  - rewrite lookup_alter_ne in Hk by congruence.
    destruct (H k nd Hk) as (H1 & H2 & H3). split; [exact H1|]. split; [|exact H3].
    intros Hn. specialize (H2 Hn). simpl in H2.
    apply elem_of_cons in H2 as [H2 | H2]; [congruence | exact H2].
Qed.

Lemma close_frames_inv m depth stk ns :
  end_inv m stk ns ->
  end_inv m (close_frames m depth stk ns).1 (close_frames m depth stk ns).2.
Proof.
  revert ns. induction stk as [| top rest IH]; intros ns H; simpl; [exact H|].
  destruct (depth <? brace_depth_at_open top)%Z; [|exact H].
  apply IH. apply end_inv_pop. exact H.
Qed.

Lemma force_close_inv m stk ns :
  end_inv m stk ns -> end_inv m [] (force_close m stk ns).
Proof.
  revert ns. induction stk as [| top rest IH]; intros ns H; simpl; [exact H|].
  apply IH. apply end_inv_pop. exact H.
Qed.

Lemma open_node_inv m st line label name :
  end_inv m (stack st) (nodes st) ->
  end_inv m (stack (open_node st m line label name)) (nodes (open_node st m line label name)).
Proof.
  intros H. unfold open_node. cbv zeta.
  destruct (count_braces_outside_strings line) as [opens closes].
  repeat match goal with
         | |- context [let '(_, _) := ?x in _] => destruct x
         end; simpl.
  intros k nd Hk. destruct (decide (k = node_index st)) as [-> | Hne].
  - rewrite lookup_insert_eq in Hk. injection Hk as <-. simpl.
    split; [lia|]. split; [intros _; apply elem_of_cons; left; reflexivity | discriminate].
  - rewrite lookup_insert_ne in Hk by congruence.
    destruct (H k nd Hk) as (H1 & H2 & H3). split; [exact H1|]. split; [|exact H3].
    intros Hn. apply elem_of_cons. right. exact (H2 Hn).
Qed.

Lemma step_line_inv m st l :
  end_inv m (stack st) (nodes st) ->
  end_inv (S m) (stack (step_line st (S m) l)) (nodes (step_line st (S m) l)).
Proof.
  intros H. apply (end_inv_mono _ (S m)) in H; [|lia].
  unfold step_line. cbv zeta.
  set (st1 := match_or_count st (S m) (rstrip l)).
  assert (H1 : end_inv (S m) (stack st1) (nodes st1)).
  { subst st1. unfold match_or_count. destruct (match_node_open (rstrip l)) as [[label name] |].
    - apply open_node_inv. exact H.
    - destruct (count_braces_outside_strings (rstrip l)). exact H. }
  pose proof (close_frames_inv (S m) (brace_depth st1) _ _ H1) as H2.
  destruct (close_frames (S m) (brace_depth st1) (stack st1) (nodes st1)) as [stk ns].
  exact H2.
Qed.

Lemma parse_lines_inv lines m st :
  end_inv m (stack st) (nodes st) ->
  end_inv (m + length lines) (stack (parse_lines (S m) lines st)) (nodes (parse_lines (S m) lines st)).
Proof.
  revert m st. induction lines as [| l ls IH]; intros m st H; simpl.
  - rewrite Nat.add_0_r. exact H.
  - replace (m + S (length ls)) with (S m + length ls) by lia.
    apply IH. apply step_line_inv. exact H.
Qed.

(** C3. Every node of a parse result has its end line set, at or after its
    start line; this holds for every input, balanced or not. *)
Theorem parse_end_lines_set (content : string) (k : nat) (nd : node) :
  r_nodes (parse_dtsi_with_map content) !! k = Some nd ->
  exists e, end_line nd = Some e /\ start_line nd <= e.
Proof.
  unfold parse_dtsi_with_map. cbv zeta. simpl.
  set (lines := splitlines (strip_comments content)).
  assert (H0 : end_inv 0 (stack init_pstate) (nodes init_pstate)).
  { intros j x Hj. simpl in Hj. rewrite lookup_empty in Hj. discriminate Hj. }
  pose proof (parse_lines_inv lines 0 init_pstate H0) as H. simpl in H.
  destruct lines as [| l ls] eqn:El.
  - simpl. intros Hk. rewrite lookup_empty in Hk. discriminate Hk.
  - intros Hk. apply force_close_inv in H.
    destruct (H k nd Hk) as (_ & H2 & H3).
    destruct (end_line nd) as [e |] eqn:Ee.
    + exists e. split; [reflexivity | apply H3; reflexivity].
    + specialize (H2 eq_refl). simpl in H2. apply not_elem_of_nil in H2. contradiction.
Qed.

Lemma parse_end_lines_set_witness :
  exists e, end_line (mk_node None "foo" "foo" 1 (Some 2) "/foo") = Some e /\ 1 <= e.
Proof.
  apply (parse_end_lines_set c2_input 0). vm_compute. reflexivity.
Defined.

Lemma diff_paths_spec_witness :
  tree_delta "soc {" ("soc {" +:+ String nl ("gcc {" +:+ String nl ("};" +:+ String nl "};"))) =
    (["/soc/gcc"], []) /\
  (forall p, p ∈ (diff_paths {["/soc"]} {["/soc"; "/soc/gcc"]}).1 <->
             p ∈ ({["/soc"; "/soc/gcc"]} : gset string) /\ p ∉ ({["/soc"]} : gset string)).
Proof.
  split; [vm_compute; reflexivity|].
  exact (proj1 (diff_paths_spec {["/soc"]} {["/soc"; "/soc/gcc"]})).
Defined.

(** ** Subsystem summarizer *)

Global Instance rank_le_total : Total rank_le.
Proof.
  intros [a x] [b y]. unfold rank_le; simpl.
  destruct (lt_eq_lt_dec x y) as [[Hl | ->] | Hl]; [right; left; exact Hl | | left; left; exact Hl].
  destruct (total String.le a b); [left | right]; right; split; auto.
Qed.

Global Instance rank_le_trans : Transitive rank_le.
Proof.
  intros [a x] [b y] [c z]. unfold rank_le; simpl.
  intros [H1 | [-> H1]] [H2 | [-> H2]]; try (left; lia).
  right. split; [reflexivity | etrans; eassumption].
Qed.

Lemma Sorted_take {A} (R : relation A) (l : list A) (K : nat) :
  Sorted R l -> Sorted R (take K l).
Proof.
  revert K. induction l as [| x l IH]; intros K H; [rewrite take_nil; constructor|].
  destruct K as [| K]; simpl; [constructor|].
  apply Sorted_inv in H as [H1 H2]. constructor; [apply IH; exact H1|].
  destruct l as [| y l]; destruct K; simpl; constructor.
  inversion H2; assumption.
Qed.

Lemma rank_groups_top_k (d : gmap string nat) (pop : string -> nat) (groups : list string) (K : nat) :
  NoDup groups ->
  (forall n c, d !! n = Some c <-> n ∈ groups /\ c = pop n) ->
  ranked_top_k pop groups K (take K (rank_groups d)).
Proof.
  intros Hnd Hd. unfold rank_groups.
  set (full := merge_sort rank_le (map_to_list d)).
  assert (Hperm : full ≡ₚ map_to_list d) by apply merge_sort_Permutation.
  assert (Hsorted : Sorted rank_le full) by (apply Sorted_merge_sort; apply _).
  assert (Hin : forall n c, (n, c) ∈ full <-> n ∈ groups /\ c = pop n).
  { intros n c. rewrite Hperm, elem_of_map_to_list. apply Hd. }
  assert (Hfst : NoDup (map fst full)).
  { rewrite Hperm. apply NoDup_fst_map_to_list. }
  assert (Hlen : length full = length groups).
  { rewrite <- (length_map fst full). apply Permutation_length.
    apply NoDup_Permutation; [exact Hfst | exact Hnd |].
    intros n. rewrite list_elem_of_fmap. split.
    - intros ([n' c] & -> & H). apply Hin in H. apply H.
    - intros H. exists (n, pop n). split; [reflexivity | apply Hin; auto]. }
  split; [|split; [|split; [|split]]].
  - intros n c H. apply Hin. apply (elem_of_prefix (take K full) full); [exact H | apply prefix_take].
  - rewrite <- (take_drop K full), map_app in Hfst. apply NoDup_app in Hfst. apply Hfst.
  - apply Sorted_take. exact Hsorted.
  - rewrite length_take, Hlen. reflexivity.
  - intros n Hn Hnot e He.
    assert (Hx : (n, pop n) ∈ drop K full).
    { assert (Hf : (n, pop n) ∈ full) by (apply Hin; auto).
      rewrite <- (take_drop K full) in Hf. apply elem_of_app in Hf as [Hf | Hf]; [|exact Hf].
      exfalso. apply Hnot. apply list_elem_of_fmap. exists (n, pop n). auto. }
    apply Sorted_StronglySorted in Hsorted; [|apply _].
    rewrite <- (take_drop K full) in Hsorted.
    exact (StronglySorted_app_1_elem_of _ _ _ _ _ Hsorted He Hx).
Qed.

Lemma bump_lookup (k : string) (d : gmap string nat) (n : string) :
  default 0 (bump k d !! n) = default 0 (d !! n) + (if decide (n = k) then 1 else 0).
Proof.
  unfold bump. destruct (decide (n = k)) as [-> | Hne].
  - rewrite lookup_insert_eq. simpl. lia.
  - rewrite lookup_insert_ne by congruence. lia.
Qed.

Lemma count_groups_counts (ps : list string) (r0 s0 : gmap string nat) (n : string) :
  default 0 ((count_groups ps r0 s0).1 !! n) = default 0 (r0 !! n) + group_pop ps n /\
  default 0 ((count_groups ps r0 s0).2 !! n) = default 0 (s0 !! n) + soc_pop ps n.
Proof.
  revert r0 s0. induction ps as [| p ps IH]; intros r0 s0.
  - simpl. unfold group_pop, soc_pop. simpl. lia.
  - unfold group_pop, soc_pop, soc_second in *. rewrite !filter_cons. simpl.
    destruct (top_name_from_path p) as [top |] eqn:Et.
    + destruct (IH (bump top r0)
                  (if String.eqb top "soc" then
                     match second_name_from_path p with Some second => bump second s0 | None => s0 end
                   else s0)) as [IH1 IH2].
      rewrite IH1, IH2, bump_lookup. split.
      * destruct (decide (n = top)) as [-> | Hne].
        -- rewrite decide_True by reflexivity. simpl. lia.
        -- rewrite decide_False by congruence. lia.
      * destruct (String.eqb_spec top "soc") as [-> | Hne].
        -- rewrite bool_decide_eq_true_2 by reflexivity.
           destruct (second_name_from_path p) as [second |].
           ++ rewrite bump_lookup. destruct (decide (n = second)) as [-> | Hne'].
              ** rewrite decide_True by reflexivity. simpl. lia.
              ** rewrite decide_False by congruence. lia.
           ++ rewrite decide_False by discriminate. lia.
        -- rewrite bool_decide_eq_false_2 by congruence.
           rewrite decide_False by discriminate. lia.
    + rewrite decide_False by discriminate.
      rewrite bool_decide_eq_false_2 by discriminate.
      rewrite decide_False by discriminate. apply IH.
Qed.

Lemma count_groups_pos (ps : list string) (r0 s0 : gmap string nat) (n : string) :
  (forall m, r0 !! m <> Some 0) -> (forall m, s0 !! m <> Some 0) ->
  (count_groups ps r0 s0).1 !! n <> Some 0 /\ (count_groups ps r0 s0).2 !! n <> Some 0.
Proof.
  assert (Hb : forall k d, (forall m, d !! m <> Some 0) -> forall m, bump k d !! m <> Some 0).
  { intros k d Hd m. unfold bump. destruct (decide (m = k)) as [-> | Hne].
    - rewrite lookup_insert_eq. discriminate.
    - rewrite lookup_insert_ne by congruence. apply Hd. }
  revert r0 s0. induction ps as [| p ps IH]; intros r0 s0 Hr Hs; simpl; [auto|].
  destruct (top_name_from_path p) as [top |]; [|apply IH; auto].
  apply IH; [apply Hb, Hr|].
  destruct (String.eqb top "soc"); [|exact Hs].
  destruct (second_name_from_path p); [apply Hb, Hs | exact Hs].
Qed.

Lemma filter_length_pos {A} (P : A -> Prop) `{forall x, Decision (P x)} (l : list A) :
  0 < length (filter P l) <-> exists x, x ∈ l /\ P x.
Proof.
  induction l as [| x l IH].
  - simpl. split; [lia | intros (y & Hy & _); apply not_elem_of_nil in Hy; contradiction].
  - rewrite filter_cons. destruct (decide (P x)) as [Hx | Hx]; simpl.
    + split; [intros _; exists x; split; [apply elem_of_cons; left; reflexivity | exact Hx] | lia].
    + rewrite IH. split.
      * intros (y & Hy & Py). exists y. split; [apply elem_of_cons; right; exact Hy | exact Py].
      * intros (y & Hy & Py). apply elem_of_cons in Hy as [-> | Hy]; [contradiction | eauto].
Qed.

Lemma count_groups_table (f : string -> option string) (pop : string -> nat)
    (d : gmap string nat) (ps : list string) :
  (forall n, pop n = length (filter (fun p => f p = Some n) ps)) ->
  (forall n, default 0 (d !! n) = pop n) -> (forall n, d !! n <> Some 0) ->
  forall n c, d !! n = Some c <-> n ∈ remove_dups (omap f ps) /\ c = pop n.
Proof.
  intros Hpop Hdef Hpos n c. rewrite elem_of_remove_dups, list_elem_of_omap.
  assert (Hp : 0 < pop n <-> exists p, p ∈ ps /\ f p = Some n)
    by (rewrite Hpop; apply filter_length_pos).
  specialize (Hdef n). specialize (Hpos n). split.
  - intros Hd. rewrite Hd in Hdef. simpl in Hdef.
    split; [apply Hp; destruct c; [congruence | lia] | exact Hdef].
  - intros [Hin ->]. apply Hp in Hin.
    destruct (d !! n) as [c' |]; simpl in Hdef; [congruence | lia].
Qed.

(** C9. Each summary list holds the top 18 groups, named by the first
    (respectively, under [soc], the second) path segment, each with the
    number of paths in it, ranked by descending population and then
    ascending name; with 5000 distinct top-level groups, 18 root entries. *)
Theorem overview_summary_spec (ps : list string) :
  ranked_top_k (group_pop ps) (top_groups ps) 18 (overview_summary ps 18 18).1 /\
  ranked_top_k (soc_pop ps) (soc_groups ps) 18 (overview_summary ps 18 18).2 /\
  (length (top_groups ps) = 5000 -> length (overview_summary ps 18 18).1 = 18).
Proof.
  unfold overview_summary.
  pose proof (count_groups_counts ps ∅ ∅) as Hc.
  pose proof (count_groups_pos ps ∅ ∅) as Hp.
  destruct (count_groups ps ∅ ∅) as [root soc]. simpl in *.
  assert (Hp' : forall n, root !! n <> Some 0 /\ soc !! n <> Some 0).
  { intros n. apply Hp; intros m; rewrite lookup_empty; discriminate. }
  assert (Hr : ranked_top_k (group_pop ps) (top_groups ps) 18 (take 18 (rank_groups root))).
  { apply rank_groups_top_k; [apply NoDup_remove_dups|].
    apply (count_groups_table top_name_from_path); [reflexivity | | apply Hp'].
    intros n. rewrite (proj1 (Hc n)), lookup_empty. reflexivity. }
  split; [exact Hr | split].
  - apply rank_groups_top_k; [apply NoDup_remove_dups|].
    apply (count_groups_table soc_second); [reflexivity | | apply Hp'].
    intros n. rewrite (proj2 (Hc n)), lookup_empty. reflexivity.
  - intros H5. destruct Hr as (_ & _ & _ & Hlen & _). rewrite Hlen, H5. reflexivity.
Qed.

Lemma overview_summary_spec_witness :
  length (top_groups ["/cpus"; "/soc"; "/soc/gcc"]) = 2 /\
  ranked_top_k (group_pop ["/cpus"; "/soc"; "/soc/gcc"]) (top_groups ["/cpus"; "/soc"; "/soc/gcc"]) 18
    (overview_summary ["/cpus"; "/soc"; "/soc/gcc"] 18 18).1.
Proof. split; [vm_compute; reflexivity | apply (overview_summary_spec ["/cpus"; "/soc"; "/soc/gcc"])]. Defined.

(** ** Idle diagram *)

Lemma str_append_assoc (a b c : string) : (a +:+ b) +:+ c = a +:+ (b +:+ c).
Proof.
  induction a as [| x a IH]; [reflexivity|].
  change (String x ((a +:+ b) +:+ c) = String x (a +:+ (b +:+ c))). rewrite IH. reflexivity.
Qed.

Lemma digit_char_val (d : nat) : d < 10 -> nat_of_ascii (digit_char d) = 48 + d.
Proof. intros H. unfold digit_char. apply nat_ascii_embedding. lia. Qed.

Lemma digit_char_digit (d : nat) : d < 10 -> is_digit (digit_char d) = true.
Proof.
  intros H. unfold is_digit. rewrite digit_char_val by exact H.
  apply andb_true_iff. split; apply Nat.leb_le; lia.
Qed.

Lemma str_of_nat_go_S (f n : nat) (acc : string) :
  str_of_nat_go (S f) n acc =
  if n <? 10 then String (digit_char (n mod 10)) acc
  else str_of_nat_go f (n / 10) (String (digit_char (n mod 10)) acc).
Proof. reflexivity. Qed.

Lemma int_of_digits_go_cons (a : nat) (c : ascii) (s : string) :
  int_of_digits_go a (String c s) = int_of_digits_go (10 * a + (nat_of_ascii c - 48)) s.
Proof. reflexivity. Qed.

Lemma str_of_nat_go_app (fuel n : nat) (acc : string) :
  str_of_nat_go fuel n acc = str_of_nat_go fuel n EmptyString +:+ acc.
Proof.
  revert n acc. induction fuel as [| f IH]; intros n acc; [reflexivity|].
  rewrite !str_of_nat_go_S. destruct (n <? 10); [reflexivity|].
  rewrite (IH (n / 10) (String (digit_char (n mod 10)) acc)).
  rewrite (IH (n / 10) (String (digit_char (n mod 10)) EmptyString)).
  rewrite str_append_assoc. reflexivity.
Qed.

Lemma str_of_nat_go_digits (fuel n : nat) (acc : string) :
  all_digits acc = true -> all_digits (str_of_nat_go fuel n acc) = true.
Proof.
  revert n acc. induction fuel as [| f IH]; intros n acc H; [exact H|].
  rewrite str_of_nat_go_S.
  assert (Hc : all_digits (String (digit_char (n mod 10)) acc) = true).
  { change (is_digit (digit_char (n mod 10)) && all_digits acc = true).
    rewrite digit_char_digit by (apply Nat.mod_upper_bound; lia). exact H. }
  destruct (n <? 10); [exact Hc | apply IH; exact Hc].
Qed.

Lemma str_of_nat_go_nonempty (fuel n : nat) (acc : string) :
  nonempty acc = true -> nonempty (str_of_nat_go fuel n acc) = true.
Proof.
  revert n acc. induction fuel as [| f IH]; intros n acc H; [exact H|].
  rewrite str_of_nat_go_S. destruct (n <? 10); [reflexivity | apply IH; reflexivity].
Qed.

Lemma str_of_nat_go_value (fuel n : nat) (acc : string) (a : nat) :
  n < fuel -> exists P, int_of_digits_go a (str_of_nat_go fuel n acc) = int_of_digits_go (a * P + n) acc.
Proof.
  revert n acc a. induction fuel as [| f IH]; intros n acc a Hn; [lia|].
  rewrite str_of_nat_go_S.
  destruct (Nat.ltb_spec n 10) as [Hlt | Hge].
  - exists 10. rewrite int_of_digits_go_cons, Nat.mod_small by exact Hlt.
    rewrite digit_char_val by exact Hlt. f_equal. lia.
  - destruct (IH (n / 10) (String (digit_char (n mod 10)) acc) a) as [P HP].
    { assert (n / 10 < n) by (apply Nat.div_lt; lia). lia. }
    exists (10 * P). rewrite HP, int_of_digits_go_cons.
    rewrite digit_char_val by (apply Nat.mod_upper_bound; lia). f_equal.
    pose proof (Nat.div_mod_eq n 10). lia.
Qed.

Lemma str_of_nat_props (n : nat) :
  all_digits (str_of_nat n) = true /\ nonempty (str_of_nat n) = true /\
  int_of_digits (str_of_nat n) = n /\
  (forall acc, str_of_nat_go (S n) n acc = str_of_nat n +:+ acc).
Proof.
  unfold str_of_nat. split; [|split; [|split]].
  - apply str_of_nat_go_digits. reflexivity.
  - rewrite str_of_nat_go_S. destruct (n <? 10); [reflexivity | apply str_of_nat_go_nonempty; reflexivity].
  - unfold int_of_digits. destruct (str_of_nat_go_value (S n) n EmptyString 0) as [P HP]; [lia|].
    rewrite HP. reflexivity.
  - intros acc. apply str_of_nat_go_app.
Qed.

Lemma strip_prefix_app (p s : string) : strip_prefix p (p +:+ s) = Some s.
Proof.
  induction p as [| a p IH]; [reflexivity|].
  change (strip_prefix (String a p) (String a (p +:+ s)) = Some s). simpl.
  unfold chr_eq. rewrite Ascii.eqb_refl. exact IH.
Qed.

Lemma span_digits_app (d r : string) :
  all_digits d = true -> match r with String c _ => is_digit c = false | EmptyString => True end ->
  span_digits (d +:+ r) = (d, r).
Proof.
  intros Hd Hr. induction d as [| c d IH].
  - destruct r as [| c r]; [reflexivity|]. simpl. rewrite Hr. reflexivity.
  - change (span_digits (String c (d +:+ r)) = (String c d, r)). simpl. simpl in Hd. apply andb_true_iff in Hd as [Hc Hd]. rewrite Hc, IH by exact Hd. reflexivity.
Qed.

Ltac read_index n :=
  destruct (str_of_nat_props n) as (Hd & Hne & Hv & _);
  rewrite ?str_append_assoc, strip_prefix_app, span_digits_app by (exact Hd || reflexivity);
  rewrite Hne, Hv.

Lemma classify_cpu_decl (i : nat) : classify (cpu_decl i) = K_cpu_decl i.
Proof. unfold classify, cpu_decl. read_index i. reflexivity. Qed.

Lemma classify_pd_decl (i : nat) : classify (pd_decl i) = K_pd_decl i.
Proof. unfold classify, pd_decl. read_index i. reflexivity. Qed.

Lemma classify_cpu_to_idle (i : nat) : classify (cpu_to_idle i) = K_cpu_idle i.
Proof. unfold classify, cpu_to_idle. read_index i. reflexivity. Qed.

Lemma classify_cpu_to_pd (i : nat) : classify (cpu_to_pd i) = K_cpu_pd i.
Proof. unfold classify, cpu_to_pd. read_index i. reflexivity. Qed.

Lemma classify_pd_to_idle (i : nat) : classify (pd_to_idle i) = K_pd_idle i.
Proof. unfold classify, pd_to_idle. read_index i. reflexivity. Qed.

Lemma map_classify_lines (info : idle_info) :
  map classify (idle_mermaid_lines info) =
    [K_other; K_other; K_other] ++ map K_cpu_decl (take 8 (cpu_idxs info))
    ++ [K_other; K_other; K_other] ++ map K_pd_decl (take 8 (pd_idxs info))
    ++ [K_other; K_other; K_other; K_other]
    ++ map (fun i => if bool_decide (i ∈ take 8 (pd_idxs info)) then K_cpu_pd i else K_cpu_idle i)
           (take 8 (cpu_idxs info))
    ++ map K_pd_idle (take 8 (pd_idxs info)) ++ [K_other; K_other; K_other].
Proof.
  unfold idle_mermaid_lines. rewrite !map_app, !map_map.
  rewrite (List.map_ext (fun x => classify (cpu_decl x)) K_cpu_decl classify_cpu_decl).
  rewrite (List.map_ext (fun x => classify (pd_decl x)) K_pd_decl classify_pd_decl).
  rewrite (List.map_ext (fun x => classify (pd_to_idle x)) K_pd_idle classify_pd_to_idle).
  rewrite (List.map_ext (fun x => classify (if bool_decide (x ∈ take 8 (pd_idxs info)) then cpu_to_pd x else cpu_to_idle x)) (fun i => if bool_decide (i ∈ take 8 (pd_idxs info)) then K_cpu_pd i else K_cpu_idle i)).
  - reflexivity.
  - intros i. destruct (bool_decide _); [apply classify_cpu_to_pd | apply classify_cpu_to_idle].
Qed.

(** Which index-carrying kinds occur among the classified lines. *)
Lemma in_classified_lines (info : idle_info) (k : line_kind) :
  In k (map classify (idle_mermaid_lines info)) ->
  k = K_other \/
  (exists i, k = K_cpu_decl i /\ In i (take 8 (cpu_idxs info))) \/
  (exists i, k = K_pd_decl i /\ In i (take 8 (pd_idxs info))) \/
  (exists i, k = K_cpu_pd i /\ In i (take 8 (cpu_idxs info)) /\ i ∈ take 8 (pd_idxs info)) \/
  (exists i, k = K_cpu_idle i /\ In i (take 8 (cpu_idxs info)) /\ i ∉ take 8 (pd_idxs info)) \/
  (exists i, k = K_pd_idle i /\ In i (take 8 (pd_idxs info))).
Proof.
  rewrite map_classify_lines. rewrite !in_app_iff.
  intros [H | [H | [H | [H | [H | [H | [H | H]]]]]]].
  - left. simpl in H. intuition congruence.
  - right; left. apply in_map_iff in H as (i & <- & Hi). eauto.
  - left. simpl in H. intuition congruence.
  - right; right; left. apply in_map_iff in H as (i & <- & Hi). eauto.
  - left. simpl in H. intuition congruence.
  - apply in_map_iff in H as (i & <- & Hi).
    destruct (bool_decide_reflect (i ∈ take 8 (pd_idxs info))) as [Hp | Hp].
    + right; right; right; left. eauto.
    + right; right; right; right; left. eauto.
  - right; right; right; right; right. apply in_map_iff in H as (i & <- & Hi). eauto.
  - left. simpl in H. intuition congruence.
Qed.

Lemma idx_set_NoDup (ms : list caps) : NoDup (idx_set ms).
Proof. unfold idx_set. rewrite merge_sort_Permutation. apply NoDup_remove_dups. Qed.

Lemma extract_idle_info_NoDup (content : string) (info : idle_info) :
  extract_idle_info content = IdleInfo info -> NoDup (cpu_idxs info) /\ NoDup (pd_idxs info).
Proof.
  intros H.
  destruct (extract_idle_info_cases content) as [H' | (cp & clp & _ & H')];
    rewrite H' in H; [discriminate H|]. injection H as <-. simpl.
  assert (H4 : NoDup [0; 1; 2; 3]) by (apply NoDup_ListNoDup; repeat constructor; simpl; lia).
  split.
  - destruct (bool_decide (matched_cpu_idxs (strip_comments content) = [])); [exact H4 | apply idx_set_NoDup].
  - destruct (bool_decide (matched_pd_idxs (strip_comments content) = [])); [exact H4 | apply idx_set_NoDup].
Qed.

Lemma not_in_take_beyond (l : list nat) (k i : nat) :
  NoDup l -> l !! k = Some i -> 8 <= k -> i ∉ take 8 l.
Proof.
  intros Hnd Hk Hge Hin.
  assert (Hd : i ∈ drop 8 l).
  { apply list_elem_of_lookup. exists (k - 8). rewrite lookup_drop.
    replace (8 + (k - 8)) with k by lia. exact Hk. }
  rewrite <- (take_drop 8 l) in Hnd. apply NoDup_app in Hnd as (_ & Hdis & _).
  exact (Hdis i Hin Hd).
Qed.

(** C10. When the topology is found, the idle diagram is the join of
    [idle_mermaid_lines]; it declares exactly the CPUs and power domains
    among the first 8 of the extracted lists (an index at position 8 or
    beyond is not declared), and links a CPU through its power domain
    exactly when the CPU is among the first 8 CPU indices and the index is
    among the first 8 power-domain indices, directly to the CPU idle state
    otherwise. *)
Theorem idle_mermaid_first_eight (content : string) (info : idle_info) :
  extract_idle_info content = IdleInfo info -> found info = true ->
  parse_idle_mermaid content = join (String nl EmptyString) (idle_mermaid_lines info) /\
  (forall i, cpu_decl i ∈ idle_mermaid_lines info <-> i ∈ take 8 (cpu_idxs info)) /\
  (forall i, pd_decl i ∈ idle_mermaid_lines info <-> i ∈ take 8 (pd_idxs info)) /\
  (forall k i, cpu_idxs info !! k = Some i -> 8 <= k -> cpu_decl i ∉ idle_mermaid_lines info) /\
  (forall k i, pd_idxs info !! k = Some i -> 8 <= k -> pd_decl i ∉ idle_mermaid_lines info) /\
  (forall i, cpu_to_pd i ∈ idle_mermaid_lines info <->
             i ∈ take 8 (cpu_idxs info) /\ i ∈ take 8 (pd_idxs info)) /\
  (forall i, cpu_to_idle i ∈ idle_mermaid_lines info <->
             i ∈ take 8 (cpu_idxs info) /\ i ∉ take 8 (pd_idxs info)).
Proof.
  intros Hx Hf.
  destruct (extract_idle_info_NoDup content info Hx) as [Hnc Hnp].
  assert (Hcls : forall x, x ∈ idle_mermaid_lines info ->
                 In (classify x) (map classify (idle_mermaid_lines info)))
    by (intros x Hx'; apply in_map; apply list_elem_of_In; exact Hx').
  assert (Hcpu : forall i, cpu_decl i ∈ idle_mermaid_lines info <-> i ∈ take 8 (cpu_idxs info)).
  { intros i. split.
    - intros H. apply Hcls, in_classified_lines in H. rewrite classify_cpu_decl in H.
      destruct H as [H | [(j & Hj & Hi) | [(j & Hj & _) | [(j & Hj & _) | [(j & Hj & _) | (j & Hj & _)]]]]];
        try discriminate. injection Hj as ->. apply list_elem_of_In. exact Hi.
    - intros H. unfold idle_mermaid_lines. rewrite list_elem_of_In, !in_app_iff.
      right; left. apply in_map. apply list_elem_of_In. exact H. }
  assert (Hpd : forall i, pd_decl i ∈ idle_mermaid_lines info <-> i ∈ take 8 (pd_idxs info)).
  { intros i. split.
    - intros H. apply Hcls, in_classified_lines in H. rewrite classify_pd_decl in H.
      destruct H as [H | [(j & Hj & _) | [(j & Hj & Hi) | [(j & Hj & _) | [(j & Hj & _) | (j & Hj & _)]]]]];
        try discriminate. injection Hj as ->. apply list_elem_of_In. exact Hi.
    - intros H. unfold idle_mermaid_lines. rewrite list_elem_of_In, !in_app_iff.
      do 3 right; left. apply in_map. apply list_elem_of_In. exact H. }
  split; [|split; [exact Hcpu | split; [exact Hpd | split; [|split; [|split]]]]].
  - unfold parse_idle_mermaid. rewrite Hx, Hf. reflexivity.
  - intros k i Hk Hge H. apply Hcpu in H. exact (not_in_take_beyond _ k i Hnc Hk Hge H).
  - intros k i Hk Hge H. apply Hpd in H. exact (not_in_take_beyond _ k i Hnp Hk Hge H).
  - intros i. split.
    + intros H. apply Hcls, in_classified_lines in H. rewrite classify_cpu_to_pd in H.
      destruct H as [H | [(j & Hj & _) | [(j & Hj & _) | [(j & Hj & Hi & Hp) | [(j & Hj & _) | (j & Hj & _)]]]]];
        try discriminate. injection Hj as ->. split; [apply list_elem_of_In; exact Hi | exact Hp].
    + intros [Hc Hp]. unfold idle_mermaid_lines. rewrite list_elem_of_In, !in_app_iff.
      do 5 right; left. apply in_map_iff. exists i.
      rewrite bool_decide_eq_true_2 by exact Hp. split; [reflexivity | apply list_elem_of_In; exact Hc].
  - intros i. split.
    + intros H. apply Hcls, in_classified_lines in H. rewrite classify_cpu_to_idle in H.
      destruct H as [H | [(j & Hj & _) | [(j & Hj & _) | [(j & Hj & _) | [(j & Hj & Hi & Hp) | (j & Hj & _)]]]]];
        try discriminate. injection Hj as ->. split; [apply list_elem_of_In; exact Hi | exact Hp].
    + intros [Hc Hp]. unfold idle_mermaid_lines. rewrite list_elem_of_In, !in_app_iff.
      do 5 right; left. apply in_map_iff. exists i.
      rewrite bool_decide_eq_false_2 by exact Hp. split; [reflexivity | apply list_elem_of_In; exact Hc].
Qed.

Lemma idle_mermaid_first_eight_witness :
  exists info, extract_idle_info c7_text = IdleInfo info /\ found info = true /\
               parse_idle_mermaid c7_text = join (String nl EmptyString) (idle_mermaid_lines info).
Proof.
  exists (mk_idle true [0] [0; 1; 2; 3] (Some "0x40000004") None false false).
  assert (Hx : extract_idle_info c7_text =
               IdleInfo (mk_idle true [0] [0; 1; 2; 3] (Some "0x40000004") None false false))
    by (vm_compute; reflexivity).
  split; [exact Hx | split; [reflexivity|]].
  exact (proj1 (idle_mermaid_first_eight c7_text _ Hx eq_refl)).
Defined.

(* ================================================================== *)
(** * Further properties of the parser, the routes and the clone service *)

Lemma str_app_nil_l (y : string) : EmptyString +:+ y = y.
Proof. reflexivity. Qed.

Lemma str_app_cons (a : ascii) (x y : string) : String a x +:+ y = String a (x +:+ y).
Proof. reflexivity. Qed.

Lemma str_app_nil_r (x : string) : x +:+ EmptyString = x.
Proof. induction x as [| a x IH]; [reflexivity|]. rewrite str_app_cons, IH. reflexivity. Qed.

Lemma count_char_app (a : ascii) (x y : string) :
  count_char a (x +:+ y) = count_char a x + count_char a y.
Proof.
  induction x as [| b x IH]; [reflexivity|]. rewrite str_app_cons. simpl. rewrite IH. lia.
Qed.

Lemma count_char_rev_app (a : ascii) (x y : string) :
  count_char a (String.rev_app x y) = count_char a x + count_char a y.
Proof.
  revert y. induction x as [| b x IH]; intros y; [reflexivity|]. simpl. rewrite IH. simpl. lia.
Qed.

Lemma rev_app_rev_app (x y z : string) :
  String.rev_app (String.rev_app x y) z = String.rev_app y (x +:+ z).
Proof.
  revert y z. induction x as [| b x IH]; intros y z; [reflexivity|]. simpl. rewrite IH. reflexivity.
Qed.

Lemma rev_rev_app (x : string) : String.rev (String.rev_app x EmptyString) = x.
Proof. unfold String.rev. rewrite rev_app_rev_app. simpl. apply str_app_nil_r. Qed.

(** ** Comment stripping *)

Lemma strip_go_count (n : nat) : forall s, String.length s <= n ->
  forall a in_str str_ch lc bc, count_char a (strip_go in_str str_ch lc bc s) <= count_char a s.
Proof.
  induction n as [| n IH]; intros s Hlen a in_str str_ch lc bc.
  - destruct s; [reflexivity | simpl in Hlen; lia].
  - destruct s as [| ch s1]; [reflexivity|]. simpl in Hlen.
    assert (H1 : forall b1 o b2 b3, count_char a (strip_go b1 o b2 b3 s1) <= count_char a s1)
      by (intros; apply IH; lia).
    assert (H2 : forall nxt s2, s1 = String nxt s2 ->
               forall b1 o b2 b3, count_char a (strip_go b1 o b2 b3 s2) <= count_char a s2).
    { intros nxt s2 -> *. apply IH. simpl in Hlen. lia. }
    simpl.
    destruct lc.
    { destruct (chr_eq ch nl);
        [pose proof (H1 in_str str_ch false bc) | pose proof (H1 in_str str_ch true bc)]; simpl; lia. }
    destruct bc.
    { destruct s1 as [| nxt s2]; [simpl; lia|].
      destruct (chr_eq ch "*" && chr_eq nxt "/").
      - specialize (H2 nxt s2 eq_refl in_str str_ch false false). simpl. simpl in H2. lia.
      - specialize (H1 in_str str_ch false true). simpl in *. lia. }
    destruct in_str.
    { destruct s1 as [| nxt s2].
      - destruct (bool_decide (Some ch = str_ch)); simpl; lia.
      - destruct (chr_eq ch "\").
        + specialize (H2 nxt s2 eq_refl true str_ch false false). simpl in *. lia.
        + destruct (bool_decide (Some ch = str_ch)); simpl;
            [specialize (H1 false str_ch false false) | specialize (H1 true str_ch false false)];
            simpl in H1; lia. }
    destruct (is_quote ch).
    { specialize (H1 true (Some ch) false false). simpl. lia. }
    destruct s1 as [| nxt s2]; [simpl; lia|].
    destruct (chr_eq ch "/" && chr_eq nxt "/").
    { specialize (H2 nxt s2 eq_refl false str_ch true false). simpl in *. lia. }
    destruct (chr_eq ch "/" && chr_eq nxt "*").
    { specialize (H2 nxt s2 eq_refl false str_ch false true). simpl in *. lia. }
    specialize (H1 false str_ch false false). simpl in *. lia.
Qed.

Lemma strip_comments_count (a : ascii) (s : string) :
  count_char a (strip_comments s) <= count_char a s.
Proof. apply (strip_go_count (String.length s)). lia. Qed.

Lemma chr_eq_true (a b : ascii) : chr_eq a b = true -> a = b.
Proof. unfold chr_eq. apply Ascii.eqb_eq. Qed.

Lemma strip_go_no_slash (n : nat) : forall s, String.length s <= n -> count_char "/" s = 0 ->
  forall in_str str_ch, strip_go in_str str_ch false false s = s.
Proof.
  induction n as [| n IH]; intros s Hlen Hs in_str str_ch.
  - destruct s; [reflexivity | simpl in Hlen; lia].
  - destruct s as [| ch s1]; [reflexivity|]. simpl in Hlen, Hs.
    destruct (chr_eq ch "/") eqn:Ec; [lia|]. simpl in Hs.
    assert (H1 : forall b1 o, strip_go b1 o false false s1 = s1) by (intros; apply IH; lia).
    simpl. destruct in_str.
    + destruct s1 as [| nxt s2].
      * destruct (bool_decide (Some ch = str_ch)); reflexivity.
      * destruct (chr_eq ch "\").
        -- simpl in Hs, Hlen. destruct (chr_eq nxt "/"); [lia|].
           rewrite IH by (simpl in *; lia). reflexivity.
        -- destruct (bool_decide (Some ch = str_ch)); rewrite H1; reflexivity.
    + destruct (is_quote ch); [rewrite H1; reflexivity|].
      destruct s1 as [| nxt s2]; [reflexivity|]. rewrite Ec. cbn [andb]. rewrite H1. reflexivity.
Qed.

Lemma strip_go_newlines (n : nat) : forall s, String.length s <= n -> count_char "*" s = 0 ->
  forall in_str str_ch lc, count_char nl (strip_go in_str str_ch lc false s) = count_char nl s.
Proof.
  induction n as [| n IH]; intros s Hlen Hs in_str str_ch lc.
  - destruct s; [reflexivity | simpl in Hlen; lia].
  - destruct s as [| ch s1]; [reflexivity|]. simpl in Hlen, Hs.
    destruct (chr_eq ch "*") eqn:Es; [lia|]. simpl in Hs.
    assert (H1 : forall b1 o l, count_char nl (strip_go b1 o l false s1) = count_char nl s1)
      by (intros; apply IH; lia).
    simpl. destruct lc.
    { destruct (chr_eq ch nl) eqn:En; cbn [count_char]; rewrite H1; try rewrite En; reflexivity. }
    destruct in_str.
    + destruct s1 as [| nxt s2].
      * destruct (bool_decide (Some ch = str_ch)); cbn [count_char]; rewrite H1; reflexivity.
      * destruct (chr_eq ch "\").
        -- simpl in Hs, Hlen. destruct (chr_eq nxt "*"); [lia|].
           cbn [count_char]. rewrite IH by (simpl in *; lia). reflexivity.
        -- destruct (bool_decide (Some ch = str_ch)); cbn [count_char]; rewrite H1; reflexivity.
    + destruct (is_quote ch); [cbn [count_char]; rewrite H1; reflexivity|].
      destruct s1 as [| nxt s2]; [reflexivity|].
      simpl in Hs, Hlen. destruct (chr_eq nxt "*") eqn:En2; [lia|].
      destruct (chr_eq ch "/") eqn:Ec; cbn [andb].
      * destruct (chr_eq nxt "/") eqn:En.
        -- apply chr_eq_true in Ec, En. subst ch nxt.
           rewrite IH by (simpl in *; lia). reflexivity.
        -- cbn [count_char]. rewrite H1. reflexivity.
      * cbn [count_char]. rewrite H1. reflexivity.
Qed.

(** ** Brace counting *)

Lemma quote_not_brace (q : ascii) :
  is_quote q = true -> chr_eq q "{" = false /\ chr_eq q "}" = false.
Proof.
  unfold is_quote. destruct (chr_eq q "039") eqn:E1.
  - apply chr_eq_true in E1. subst q. split; reflexivity.
  - simpl. intros E2. apply chr_eq_true in E2. subst q. split; reflexivity.
Qed.

Lemma count_braces_go_no_escape (s : string) : forall in_str str_ch opens closes,
  count_char "\" s = 0 ->
  (forall q, str_ch = Some q -> is_quote q = true) ->
  count_braces_go in_str str_ch s opens closes =
    (opens + count_char "{" s, closes + count_char "}" s).
Proof.
  induction s as [| ch s1 IH]; intros in_str str_ch o c Hb Hq.
  - simpl. f_equal; lia.
  - simpl in Hb. destruct (chr_eq ch "\") eqn:Eb; [simpl in Hb; lia|]. simpl in Hb.
    assert (Hfall : forall b,
      (if is_quote ch then count_braces_go true (Some ch) s1 o c
       else if chr_eq ch "{" then count_braces_go b str_ch s1 (S o) c
       else if chr_eq ch "}" then count_braces_go b str_ch s1 o (S c)
       else count_braces_go b str_ch s1 o c) =
      (o + count_char "{" (String ch s1), c + count_char "}" (String ch s1))).
    { intros b. simpl. destruct (is_quote ch) eqn:Eq.
      - destruct (quote_not_brace ch Eq) as [-> ->].
        rewrite IH; [f_equal; lia | exact Hb | intros q [= <-]; exact Eq].
      - destruct (chr_eq ch "{") eqn:E1.
        + assert (E2 : chr_eq ch "}" = false) by (apply chr_eq_true in E1; subst ch; reflexivity).
          rewrite E2, IH by assumption. f_equal; lia.
        + destruct (chr_eq ch "}"); rewrite IH by assumption; f_equal; lia. }
    destruct in_str.
    + assert (Hclose : bool_decide (Some ch = str_ch) = true ->
                count_braces_go false str_ch s1 o c =
                (o + count_char "{" (String ch s1), c + count_char "}" (String ch s1))).
      { intros Hd. apply bool_decide_eq_true in Hd. pose proof (Hq ch (eq_sym Hd)) as Eq.
        destruct (quote_not_brace ch Eq) as [E1 E2]. simpl. rewrite E1, E2, IH by assumption.
        f_equal; lia. }
      cbn [count_braces_go]. destruct s1 as [| x s2].
      * destruct (bool_decide (Some ch = str_ch)) eqn:Hd; [exact (Hclose eq_refl) | apply Hfall].
      * rewrite Eb. destruct (bool_decide (Some ch = str_ch)) eqn:Hd; [exact (Hclose eq_refl) | apply Hfall].
    + apply Hfall.
Qed.

(** ** Line splitting *)

Lemma str_forall_rev_app (f : ascii -> bool) (x y : string) :
  str_forall f (String.rev_app x y) = str_forall f x && str_forall f y.
Proof.
  revert y. induction x as [| a x IH]; intros y; [reflexivity|]. simpl. rewrite IH. simpl.
  destruct (f a), (str_forall f x); reflexivity.
Qed.

Lemma splitlines_go_app (x t cur : string) :
  no_line_break x = true -> splitlines_go cur (x +:+ t) = splitlines_go (String.rev_app x cur) t.
Proof.
  unfold no_line_break. revert cur. induction x as [| a x IH]; intros cur Hx; [reflexivity|].
  simpl in Hx. apply andb_prop in Hx as [Ha Hx].
  rewrite str_app_cons. simpl. destruct (is_line_break a); [discriminate Ha|]. apply IH. exact Hx.
Qed.

Lemma splitlines_go_lines (n : nat) : forall s, String.length s <= n -> forall cur x,
  x ∈ splitlines_go cur s ->
  (no_line_break cur = true -> no_line_break x = true) /\
  (forall a, count_char a x <= count_char a cur + count_char a s).
Proof.
  unfold no_line_break.
  assert (Hrev : forall cur, str_forall (fun c => negb (is_line_break c)) cur = true ->
                 str_forall (fun c => negb (is_line_break c)) (String.rev cur) = true).
  { intros cur H. unfold String.rev. rewrite str_forall_rev_app, H. reflexivity. }
  assert (Hcnt : forall a cur, count_char a (String.rev cur) = count_char a cur).
  { intros a cur. unfold String.rev. rewrite count_char_rev_app. simpl. lia. }
  induction n as [| n IH]; intros s Hlen cur x Hx.
  - destruct s; [|simpl in Hlen; lia]. simpl in Hx.
    destruct cur as [| ch0 cur0]; [apply not_elem_of_nil in Hx; contradiction|].
    apply list_elem_of_singleton in Hx. subst x.
    split; [apply Hrev | intros a; rewrite Hcnt; lia].
  - destruct s as [| c s1].
    + simpl in Hx. destruct cur as [| ch0 cur0]; [apply not_elem_of_nil in Hx; contradiction|].
      apply list_elem_of_singleton in Hx. subst x.
      split; [apply Hrev | intros a; rewrite Hcnt; lia].
    + simpl in Hlen. cbn [splitlines_go] in Hx.
      assert (Hhead : (str_forall (fun c => negb (is_line_break c)) cur = true ->
                       str_forall (fun c => negb (is_line_break c)) (String.rev cur) = true) /\
                      (forall a, count_char a (String.rev cur) <= count_char a cur + count_char a (String c s1))).
      { split; [apply Hrev | intros a; rewrite Hcnt; lia]. }
      destruct (is_line_break c) eqn:Ec.
      * assert (Htail : forall t, String.length t <= n ->
                  (forall a, count_char a t <= count_char a (String c s1)) ->
                  x ∈ splitlines_go EmptyString t ->
                  (str_forall (fun c => negb (is_line_break c)) cur = true ->
                   str_forall (fun c => negb (is_line_break c)) x = true) /\
                  (forall b, count_char b x <= count_char b cur + count_char b (String c s1))).
        { intros t Ht Hct Hxt. destruct (IH t Ht EmptyString x Hxt) as [H1 H2].
          split; [intros _; apply H1; reflexivity|].
          intros b. specialize (H2 b). specialize (Hct b). simpl in H2. lia. }
        destruct s1 as [| c2 s2].
        -- apply elem_of_cons in Hx as [-> | Hx]; [exact Hhead|].
           apply (Htail EmptyString); [simpl; lia | intros a; simpl; lia | exact Hx].
        -- destruct (chr_eq c "013" && chr_eq c2 nl);
             (apply elem_of_cons in Hx as [-> | Hx]; [exact Hhead|]);
             [apply (Htail s2) | apply (Htail (String c2 s2))]; try exact Hx;
             try (simpl in *; lia); intros a; simpl; lia.
      * destruct (IH s1 ltac:(lia) (String c cur) x Hx) as [H1 H2].
        split.
        -- intros Hcur. apply H1. simpl. rewrite Ec, Hcur. reflexivity.
        -- intros a. specialize (H2 a). simpl in H2 |- *. lia.
Qed.

Lemma splitlines_join (l : list string) :
  Forall (fun x => no_line_break x = true) l ->
  splitlines (join (String nl EmptyString) l) =
    match last l with Some EmptyString => removelast l | _ => l end.
Proof.
  induction l as [| x l IH]; intros Hl; [reflexivity|].
  apply Forall_cons in Hl as [Hx Hl].
  destruct l as [| y l].
  - change (splitlines_go EmptyString x = match Some x with Some EmptyString => [] | _ => [x] end).
    rewrite <- (str_app_nil_r x) at 1. rewrite splitlines_go_app by exact Hx.
    pose proof (rev_rev_app x) as Hr.
    destruct (String.rev_app x EmptyString) as [| b r] eqn:Er.
    + simpl in Hr. subst x. reflexivity.
    + destruct x as [| a x']; [discriminate Er|]. simpl. rewrite <- Hr. reflexivity.
  - change (splitlines_go EmptyString (x +:+ String nl (join (String nl EmptyString) (y :: l))) =
            match last (y :: l) with Some EmptyString => x :: removelast (y :: l) | _ => x :: y :: l end).
    rewrite splitlines_go_app by exact Hx.
    assert (Hstep : splitlines_go (String.rev_app x EmptyString) (String nl (join (String nl EmptyString) (y :: l))) =
                    String.rev (String.rev_app x EmptyString) :: splitlines (join (String nl EmptyString) (y :: l))).
    { destruct (join (String nl EmptyString) (y :: l)); reflexivity. }
    rewrite Hstep, rev_rev_app, IH by exact Hl.
    destruct (last (y :: l)) as [[| ? ?] |]; reflexivity.
Qed.

Lemma removelast_last_app (l : list string) (x : string) :
  last l = Some x -> removelast l ++ [x] = l.
Proof.
  induction l as [| y l IH]; [discriminate|].
  destruct l as [| z l]; [intros [= ->]; reflexivity|].
  intros H. change (y :: (removelast (z :: l) ++ [x]) = y :: z :: l). rewrite IH by exact H. reflexivity.
Qed.

Lemma splitlines_no_break (s : string) :
  Forall (fun x => no_line_break x = true) (splitlines s).
Proof.
  apply Forall_forall. intros x Hx.
  exact (proj1 (splitlines_go_lines (String.length s) s ltac:(lia) EmptyString x Hx) eq_refl).
Qed.

(** [preview]: [total_lines] counts the lines of the file, and the [head]
    text splits back into the first 220 of them (one trailing empty line
    apart, which the join leaves as a final newline). *)
Theorem preview_head_lines (content : string) :
  (preview content).1 = length (splitlines content) /\
  (splitlines (preview content).2 = take 220 (splitlines content) \/
   splitlines (preview content).2 ++ [EmptyString] = take 220 (splitlines content)).
Proof.
  unfold preview. simpl. split; [reflexivity|].
  rewrite splitlines_join.
  2:{ apply Forall_take. apply splitlines_no_break. }
  destruct (last (take 220 (splitlines content))) as [[| a x] |] eqn:E;
    [right; apply removelast_last_app; exact E | left; reflexivity | left; reflexivity].
Qed.

(** ** What the matcher's combinators consume *)

Lemma sound_weaken (p : pat) (R R' : mrel) :
  sound p R -> (forall s c s' c', R s c s' c' -> R' s c s' c') -> sound p R'.
Proof.
  intros H HR s c k r Hp. destruct (H s c k r Hp) as (s' & c' & H1 & H2). eauto.
Qed.

Lemma sound_eps : sound p_eps (fun s c s' c' => s' = s /\ c' = c).
Proof. intros s c k r H. exists s, c. auto. Qed.

Lemma sound_cls (f : ascii -> bool) :
  sound (p_cls f) (fun s c s' c' => exists x, s = String x s' /\ f x = true /\ c' = c).
Proof.
  intros [| x s] c k r H; simpl in H; [discriminate H|].
  destruct (f x) eqn:E; [|discriminate H]. exists s, c. split; [exists x; auto | exact H].
Qed.

Lemma sound_seq (p q : pat) (Rp Rq : mrel) :
  sound p Rp -> sound q Rq ->
  sound (p_seq p q) (fun s c s' c' => exists s1 c1, Rp s c s1 c1 /\ Rq s1 c1 s' c').
Proof.
  intros Hp Hq s c k r H. unfold p_seq in H.
  destruct (Hp _ _ _ _ H) as (s1 & c1 & H1 & H2).
  destruct (Hq _ _ _ _ H2) as (s' & c' & H3 & H4). exists s', c'. eauto.
Qed.

Lemma sound_alt (p q : pat) (Rp Rq : mrel) :
  sound p Rp -> sound q Rq -> sound (p_alt p q) (fun s c s' c' => Rp s c s' c' \/ Rq s c s' c').
Proof.
  intros Hp Hq s c k r H. unfold p_alt in H. destruct (p s c k) as [r' |] eqn:E.
  - injection H as <-. destruct (Hp _ _ _ _ E) as (s' & c' & H1 & H2). eauto.
  - destruct (Hq _ _ _ _ H) as (s' & c' & H1 & H2). eauto.
Qed.

Lemma sound_star (f : ascii -> bool) :
  sound (p_star f) (fun s c s' c' => (exists w, s = w +:+ s') /\ c' = c).
Proof.
  intros s. induction s as [| x s IH]; intros c k r H; simpl in H.
  - exists EmptyString, c. split; [split; [exists EmptyString | ]|]; auto.
  - destruct (f x).
    + destruct (p_star f s c k) as [r' |] eqn:E.
      * injection H as <-. destruct (IH c k r' E) as (s' & c' & [[w Hw] Hc] & H2).
        exists s', c'. split; [split; [exists (String x w); rewrite Hw; reflexivity | exact Hc] | exact H2].
      * exists (String x s), c. split; [split; [exists EmptyString; reflexivity | reflexivity] | exact H].
    + exists (String x s), c. split; [split; [exists EmptyString; reflexivity | reflexivity] | exact H].
Qed.

Lemma sound_group (g : nat) (p : pat) (R : mrel) :
  sound p R ->
  sound (p_group g p) (fun s c s' c' => exists c1, R s c s' c1 /\
           c' = (g, String.substring 0 (String.length s - String.length s') s) :: c1).
Proof.
  intros H s c k r Hg. unfold p_group in Hg.
  destruct (H _ _ _ _ Hg) as (s' & c1 & H1 & H2).
  eexists s', _. split; [exists c1; split; [exact H1 | reflexivity] | exact H2].
Qed.

Lemma sound_lazy_any : sound p_lazy_any (fun s c s' c' => (exists w, s = w +:+ s') /\ c' = c).
Proof.
  intros s. induction s as [| x s IH]; intros c k r H; simpl in H.
  - destruct (k EmptyString c) eqn:E; [|discriminate H]. injection H as <-.
    exists EmptyString, c. split; [split; [exists EmptyString; reflexivity | reflexivity] | exact E].
  - destruct (k (String x s) c) as [r' |] eqn:E.
    + injection H as <-. exists (String x s), c.
      split; [split; [exists EmptyString; reflexivity | reflexivity] | exact E].
    + destruct (IH c k r H) as (s' & c' & [[w Hw] Hc] & H2). exists s', c'.
      split; [split; [exists (String x w); rewrite Hw; reflexivity | exact Hc] | exact H2].
Qed.

Lemma sound_wordb (prev : option ascii) : sound (p_wordb prev) (fun s c s' c' => s' = s /\ c' = c).
Proof.
  intros s c k r H. unfold p_wordb in H. destruct (Bool.eqb _ _); [discriminate H|]. eauto.
Qed.

Lemma sound_caret (prev : option ascii) : sound (p_caret prev) (fun s c s' c' => s' = s /\ c' = c).
Proof.
  intros s c k r H. unfold p_caret in H. destruct prev; [discriminate H|]. eauto.
Qed.

Lemma consumes_seq (p q : pat) : consumes p -> consumes q -> consumes (p_seq p q).
Proof.
  intros Hp Hq. eapply sound_weaken; [apply sound_seq; [exact Hp | exact Hq]|].
  intros s c s' c' (s1 & c1 & [w1 H1] & [w2 H2]). exists (w1 +:+ w2).
  rewrite H1, H2, str_append_assoc. reflexivity.
Qed.

Lemma consumes_alt (p q : pat) : consumes p -> consumes q -> consumes (p_alt p q).
Proof.
  intros Hp Hq. eapply sound_weaken; [apply sound_alt; [exact Hp | exact Hq]|].
  intros s c s' c' [H | H]; exact H.
Qed.

Lemma consumes_eps : consumes p_eps.
Proof.
  eapply sound_weaken; [apply sound_eps|]. intros s c s' c' [-> _]. exists EmptyString. reflexivity.
Qed.

Lemma consumes_cls (f : ascii -> bool) : consumes (p_cls f).
Proof.
  eapply sound_weaken; [apply sound_cls|]. intros s c s' c' (x & -> & _). exists (String x EmptyString).
  reflexivity.
Qed.

Lemma consumes_star (f : ascii -> bool) : consumes (p_star f).
Proof. eapply sound_weaken; [apply sound_star|]. intros s c s' c' [H _]. exact H. Qed.

Lemma consumes_plus (f : ascii -> bool) : consumes (p_plus f).
Proof. apply consumes_seq; [apply consumes_cls | apply consumes_star]. Qed.

Lemma consumes_opt (p : pat) : consumes p -> consumes (p_opt p).
Proof. intros H. apply consumes_alt; [exact H | apply consumes_eps]. Qed.

Lemma consumes_group (g : nat) (p : pat) : consumes p -> consumes (p_group g p).
Proof.
  intros H. eapply sound_weaken; [apply sound_group; exact H|]. intros s c s' c' (c1 & H1 & _). exact H1.
Qed.

Lemma consumes_caret (prev : option ascii) : consumes (p_caret prev).
Proof.
  eapply sound_weaken; [apply sound_caret|]. intros s c s' c' [-> _]. exists EmptyString. reflexivity.
Qed.

Lemma run_at_sound (p : pat) (R : mrel) (s rest : string) (c : caps) :
  sound p R -> run_at p s = Some (rest, c) -> R s [] rest c.
Proof.
  intros H Hr. unfold run_at in Hr. destruct (H _ _ _ _ Hr) as (s' & c' & H1 & H2).
  injection H2 as -> ->. exact H1.
Qed.

Lemma re_search_at (p : option ascii -> pat) (prev : option ascii) (s : string) (r : string * caps) :
  re_search p prev s = Some r ->
  exists w t prev', s = w +:+ t /\ run_at (p prev') t = Some r.
Proof.
  revert prev. induction s as [| x s IH]; intros prev H; simpl in H.
  - destruct (run_at (p prev) EmptyString) eqn:E; [|discriminate H]. injection H as <-.
    exists EmptyString, EmptyString, prev. auto.
  - destruct (run_at (p prev) (String x s)) eqn:E.
    + injection H as <-. exists EmptyString, (String x s), prev. auto.
    + destruct (IH (Some x) H) as (w & t & prev' & -> & H2).
      exists (String x w), t, prev'. auto.
Qed.


Lemma consumes_chr (a : ascii) : consumes (p_chr a).
Proof. apply consumes_cls. Qed.

Create HintDb consumes.
#[local] Hint Resolve consumes_seq consumes_alt consumes_eps consumes_cls consumes_chr consumes_star
  consumes_plus consumes_opt consumes_group consumes_caret : consumes.

Lemma consumes_then_brace (p q : pat) : consumes p -> sound q brace_rel -> sound (p_seq p q) brace_rel.
Proof.
  intros Hp Hq. eapply sound_weaken; [apply sound_seq; [exact Hp | exact Hq]|].
  intros s c s' c' (s1 & c1 & [w1 H1] & [w2 H2]). exists (w1 +:+ w2).
  rewrite H1, H2, str_append_assoc. reflexivity.
Qed.

Lemma sound_brace : sound (p_chr "{") brace_rel.
Proof.
  eapply sound_weaken; [apply sound_cls|]. intros s c s' c' (x & -> & Hx & _).
  apply chr_eq_true in Hx. subst x. exists EmptyString. reflexivity.
Qed.

Lemma NODE_OPEN_RE_brace (prev : option ascii) : sound (NODE_OPEN_RE prev) brace_rel.
Proof.
  unfold NODE_OPEN_RE.
  repeat (apply consumes_then_brace; [auto with consumes|]).
  exact sound_brace.
Qed.

Lemma match_node_open_brace (line : string) (r : option string * string) :
  match_node_open line = Some r -> 0 < count_char "{" line.
Proof.
  unfold match_node_open. destruct (re_search NODE_OPEN_RE None line) as [[rest c] |] eqn:E;
    [|discriminate].
  intros _. apply re_search_at in E as (w & t & prev' & -> & Hr).
  destruct (run_at_sound _ _ _ _ _ (NODE_OPEN_RE_brace prev') Hr) as [w' ->].
  rewrite !count_char_app. simpl. lia.
Qed.

Lemma lstrip_by_count (f : ascii -> bool) (a : ascii) (s : string) :
  count_char a (lstrip_by f s) <= count_char a s.
Proof.
  induction s as [| x s IH]; [reflexivity|]. simpl. destruct (f x); simpl; lia.
Qed.

Lemma rstrip_count (a : ascii) (s : string) : count_char a (rstrip s) <= count_char a s.
Proof.
  unfold rstrip, rstrip_by, String.rev. rewrite count_char_rev_app.
  pose proof (lstrip_by_count is_space a (String.rev_app s EmptyString)) as H.
  rewrite count_char_rev_app in H. simpl in *. lia.
Qed.


Lemma line_inv_mono lines m m' ns : m <= m' -> line_inv lines m ns -> line_inv lines m' ns.
Proof.
  intros Hle H k nd Hk. destruct (H k nd Hk) as (H1 & H2 & H3).
  split; [lia|]. split; [intros e He; specialize (H2 e He); lia | exact H3].
Qed.

Lemma line_inv_set_end lines m nid idx ns :
  idx <= m -> line_inv lines m ns -> line_inv lines m (set_end_line nid idx ns).
Proof.
  intros Hidx H k nd Hk. unfold set_end_line in Hk.
  destruct (decide (k = nid)) as [-> | Hne].
  - rewrite lookup_alter_eq in Hk.
    destruct (ns !! nid) as [nd0 |] eqn:E; simpl in Hk; [|discriminate Hk].
    injection Hk as <-. destruct (H _ _ E) as (H1 & _ & H3). simpl.
    split; [exact H1|]. split; [intros e [= <-]; exact Hidx | exact H3].
  - rewrite lookup_alter_ne in Hk by congruence. exact (H k nd Hk).
Qed.

Lemma close_frames_line_inv lines m idx depth stk ns :
  idx <= m -> line_inv lines m ns -> line_inv lines m (close_frames idx depth stk ns).2.
Proof.
  intros Hidx. revert ns. induction stk as [| top rest IH]; intros ns H; simpl; [exact H|].
  destruct (depth <? brace_depth_at_open top)%Z; [|exact H].
  apply IH. apply line_inv_set_end; assumption.
Qed.

Lemma force_close_line_inv lines m stk ns :
  line_inv lines m ns -> line_inv lines m (force_close m stk ns).
Proof.
  revert ns. induction stk as [| top rest IH]; intros ns H; simpl; [exact H|].
  apply IH. apply line_inv_set_end; [lia | exact H].
Qed.

Lemma step_line_line_inv lines m st raw :
  lines !! m = Some raw ->
  line_inv lines m (nodes st) -> line_inv lines (S m) (nodes (step_line st (S m) raw)).
Proof.
  intros Hraw H. apply (line_inv_mono _ _ (S m)) in H; [|lia].
  unfold step_line. cbv zeta.
  set (st1 := match_or_count st (S m) (rstrip raw)).
  assert (H1 : line_inv lines (S m) (nodes st1)).
  { subst st1. unfold match_or_count.
    destruct (match_node_open (rstrip raw)) as [[label name] |] eqn:Em.
    - pose proof (match_node_open_brace _ _ Em) as Hb.
      pose proof (rstrip_count "{" raw) as Hc.
      unfold open_node. cbv zeta.
      destruct (count_braces_outside_strings (rstrip raw)) as [opens closes].
      repeat match goal with
             | |- context [let '(_, _) := ?x in _] => destruct x
             end; simpl.
      intros k nd Hk. destruct (decide (k = node_index st)) as [-> | Hne].
      + rewrite lookup_insert_eq in Hk. injection Hk as <-. simpl.
        split; [lia|]. split; [discriminate|]. exists raw. split; [|lia].
        replace (S m - 1) with m by lia. rewrite Nat.sub_0_r. exact Hraw.
      + rewrite lookup_insert_ne in Hk by congruence. exact (H k nd Hk).
    - destruct (count_braces_outside_strings (rstrip raw)). exact H. }
  pose proof (close_frames_line_inv lines (S m) (S m) (brace_depth st1) (stack st1) _ (le_n _) H1) as H2.
  destruct (close_frames (S m) (brace_depth st1) (stack st1) (nodes st1)) as [stk ns].
  exact H2.
Qed.

Lemma parse_lines_line_inv lines rest m st :
  drop m lines = rest ->
  line_inv lines m (nodes st) ->
  line_inv lines (m + length rest) (nodes (parse_lines (S m) rest st)).
Proof.
  revert m st. induction rest as [| l ls IH]; intros m st Hd H; simpl.
  - rewrite Nat.add_0_r. exact H.
  - replace (m + S (length ls)) with (S m + length ls) by lia.
    apply IH.
    + rewrite <- Nat.add_1_r, <- drop_drop, Hd. reflexivity.
    + apply step_line_line_inv; [|exact H].
      rewrite <- (Nat.add_0_r m), <- lookup_drop, Hd. reflexivity.
Qed.

(** [parse_dtsi_with_map]: every node records a start line holding a [{]
    and an end line, with [1 <= start_line <= end_line <= n], [n] the
    number of lines of the comment-stripped text. *)
Theorem parse_node_lines (content : string) (k : nat) (nd : node) :
  r_nodes (parse_dtsi_with_map content) !! k = Some nd ->
  exists e l,
    end_line nd = Some e /\
    1 <= start_line nd <= e /\ e <= length (splitlines (strip_comments content)) /\
    splitlines (strip_comments content) !! (start_line nd - 1) = Some l /\
    0 < count_char "{" l.
Proof.
  unfold parse_dtsi_with_map. cbv zeta. simpl.
  set (lines := splitlines (strip_comments content)).
  assert (H0 : end_inv 0 (stack init_pstate) (nodes init_pstate)).
  { intros j x Hj. simpl in Hj. rewrite lookup_empty in Hj. discriminate Hj. }
  pose proof (parse_lines_inv lines 0 init_pstate H0) as H. simpl in H.
  assert (L0 : line_inv lines 0 (nodes init_pstate)).
  { intros j x Hj. simpl in Hj. rewrite lookup_empty in Hj. discriminate Hj. }
  pose proof (parse_lines_line_inv lines lines 0 init_pstate (drop_0 _) L0) as L. simpl in L.
  destruct lines as [| l0 ls] eqn:El.
  - simpl. intros Hk. rewrite lookup_empty in Hk. discriminate Hk.
  - intros Hk. apply force_close_inv in H. apply force_close_line_inv with (stk := stack (parse_lines 1 (l0 :: ls) init_pstate)) in L.
    destruct (H k nd Hk) as (_ & H2 & H3).
    destruct (L k nd Hk) as (L1 & L2 & l & L3 & L4).
    destruct (end_line nd) as [e |] eqn:Ee.
    + exists e, l. specialize (H3 e eq_refl). specialize (L2 e eq_refl).
      split; [reflexivity|]. split; [lia|]. split; [exact L2|]. split; assumption.
    + specialize (H2 eq_refl). simpl in H2. apply not_elem_of_nil in H2. contradiction.
Qed.

(** ** The tree built by [parse_dtsi_with_map] *)



Lemma path_display_set_end (nid idx : nat) (ns : gmap nat node) :
  path_display (set_end_line nid idx ns) = path_display ns.
Proof.
  unfold path_display, set_end_line. apply map_eq. intros i. rewrite !lookup_fmap.
  destruct (decide (i = nid)) as [-> | Hne].
  - rewrite lookup_alter_eq. destruct (ns !! nid); reflexivity.
  - rewrite lookup_alter_ne by congruence. reflexivity.
Qed.

Lemma close_frames_shape (idx : nat) (depth : Z) (stk : list frame) (ns : gmap nat node) :
  path_display (close_frames idx depth stk ns).2 = path_display ns /\
  (forall f, f ∈ (close_frames idx depth stk ns).1 -> f ∈ stk).
Proof.
  revert ns. induction stk as [| top rest IH]; intros ns; simpl; [split; auto|].
  destruct (depth <? brace_depth_at_open top)%Z; simpl; [|split; auto].
  destruct (IH (set_end_line (fr_id top) idx ns)) as [H1 H2].
  rewrite H1, path_display_set_end. split; [reflexivity|].
  intros f Hf. apply elem_of_cons. right. exact (H2 f Hf).
Qed.

Lemma force_close_shape (m : nat) (stk : list frame) (ns : gmap nat node) :
  path_display (force_close m stk ns) = path_display ns.
Proof.
  revert ns. induction stk as [| top rest IH]; intros ns; simpl; [reflexivity|].
  rewrite IH, path_display_set_end. reflexivity.
Qed.

Lemma tree_inv_push ni stk E ps P display path depth idx E' :
  tree_inv ni stk E ps P ->
  match stk with
  | top :: _ => E' = E ++ [(fr_id top, ni)] /\ path = fr_path top +:+ "/" +:+ remove_spaces (strip_dquote display)
  | [] => E' = E /\ path = "/" +:+ remove_spaces (strip_dquote display)
  end ->
  tree_inv (S ni) (mk_frame ni display depth path idx :: stk) E' ({[path]} ∪ ps)
           (<[ni := (path, display)]> P).
Proof.
  intros (I1 & I2 & I3 & I4 & I5 & I6) Hnew.
  assert (Hfresh : P !! ni = None).
  { destruct (P !! ni) eqn:E0; [|reflexivity]. assert (Hs : is_Some (P !! ni)) by (rewrite E0; eauto).
    apply I1 in Hs. lia. }
  assert (Hlt : forall k v, P !! k = Some v -> k < ni).
  { intros k v Hk. apply I1. rewrite Hk. eauto. }
  (* Facts on the new edge list. *)
  assert (HE : (forall p c, (p, c) ∈ E' -> ((p, c) ∈ E \/ c = ni /\ p < ni)) /\
               (forall p c, (p, c) ∈ E -> (p, c) ∈ E') /\
               NoDup (map snd E')).
  { destruct stk as [| top rest].
    - destruct Hnew as [-> _]. split; [auto|]. split; [auto | exact I4].
    - destruct Hnew as [-> _]. destruct (I2 top (list_elem_of_here _ _)) as [d0 Hd0].
      pose proof (Hlt _ _ Hd0) as Htop.
      split; [|split].
      + intros p c Hpc. apply elem_of_app in Hpc as [Hpc | Hpc]; [left; exact Hpc|].
        apply list_elem_of_singleton in Hpc. injection Hpc as -> ->. right. split; [reflexivity | exact Htop].
      + intros p c Hpc. apply elem_of_app. left. exact Hpc.
      + rewrite map_app. simpl. apply NoDup_app. split; [exact I4|]. split; [|apply NoDup_singleton].
        intros c Hc Hc'. apply list_elem_of_singleton in Hc'. subst c.
        apply list_elem_of_In, in_map_iff in Hc as ([p c] & Hc1 & Hc2). simpl in Hc1. subst c. apply list_elem_of_In in Hc2.
        destruct (I3 p ni Hc2). lia. }
  destruct HE as (HE1 & HE2 & HE3).
  split; [|split; [|split; [|split; [|split]]]].
  - intros k. destruct (decide (k = ni)) as [-> | Hne].
    + rewrite lookup_insert_eq. split; [lia | eauto].
    + rewrite lookup_insert_ne by congruence. rewrite I1. lia.
  - intros f Hf. apply elem_of_cons in Hf as [-> | Hf].
    + simpl. exists display. apply lookup_insert_eq.
    + destruct (I2 f Hf) as [d Hd]. exists d. rewrite lookup_insert_ne; [exact Hd|].
      pose proof (Hlt _ _ Hd). lia.
  - intros p c Hpc. destruct (HE1 p c Hpc) as [Hpc' | [-> Hp]]; [destruct (I3 p c Hpc'); lia | lia].
  - exact HE3.
  - intros x. rewrite elem_of_union, elem_of_singleton, I5. split.
    + intros [-> | (k & d & Hk)].
      * exists ni, display. apply lookup_insert_eq.
      * exists k, d. rewrite lookup_insert_ne; [exact Hk|]. pose proof (Hlt _ _ Hk). lia.
    + intros (k & d & Hk). destruct (decide (k = ni)) as [-> | Hne].
      * rewrite lookup_insert_eq in Hk. injection Hk as -> ->. left. reflexivity.
      * rewrite lookup_insert_ne in Hk by congruence. right. eauto.
  - intros k x d Hk. destruct (decide (k = ni)) as [-> | Hne].
    + rewrite lookup_insert_eq in Hk. injection Hk as <- <-.
      destruct stk as [| top rest].
      * destruct Hnew as [-> ->]. split; [eexists; reflexivity|]. right. split; [|reflexivity].
        intros p Hp. destruct (I3 p ni Hp). lia.
      * destruct Hnew as [-> ->]. destruct (I2 top (list_elem_of_here _ _)) as [d0 Hd0].
        destruct (I6 _ _ _ Hd0) as [[t Ht] _].
        split; [exists (t +:+ "/" +:+ remove_spaces (strip_dquote display)); rewrite Ht; reflexivity|].
        left. exists (fr_id top), (fr_path top), d0.
        split; [apply elem_of_app; right; apply list_elem_of_singleton; reflexivity|].
        split; [|reflexivity]. rewrite lookup_insert_ne; [exact Hd0|].
        pose proof (Hlt _ _ Hd0). lia.
    + rewrite lookup_insert_ne in Hk by congruence.
      destruct (I6 k x d Hk) as [Hs [(p & x' & d' & Hp & Hp' & Hx) | [Hnp Hx]]].
      * split; [exact Hs|]. left. exists p, x', d'. split; [apply HE2; exact Hp|].
        split; [|exact Hx]. rewrite lookup_insert_ne; [exact Hp'|].
        pose proof (Hlt _ _ Hp'). lia.
      * split; [exact Hs|]. right. split; [|exact Hx]. intros p Hp.
        destruct (HE1 p k Hp) as [Hp' | [Hk' _]]; [exact (Hnp p Hp') | congruence].
Qed.

Lemma tree_inv_open st idx line label name :
  tree_inv (node_index st) (stack st) (edges st) (paths st) (path_display (nodes st)) ->
  tree_inv (node_index (open_node st idx line label name)) (stack (open_node st idx line label name))
           (edges (open_node st idx line label name)) (paths (open_node st idx line label name))
           (path_display (nodes (open_node st idx line label name))).
Proof.
  intros H. unfold open_node. cbv zeta.
  destruct (count_braces_outside_strings line) as [opens closes].
  destruct (stack st) as [| top rest] eqn:Es; simpl;
    unfold path_display; rewrite fmap_insert; fold (path_display (nodes st)); simpl;
    (eapply tree_inv_push; [exact H|]); simpl; split; try reflexivity.
  destruct H as (_ & I2 & _ & _ & _ & I6).
  destruct (I2 top (list_elem_of_here _ _)) as [d0 Hd0].
  destruct (I6 _ _ _ Hd0) as [[t Ht] _]. rewrite Ht. reflexivity.
Qed.

Lemma tree_inv_step st idx raw :
  tree_inv (node_index st) (stack st) (edges st) (paths st) (path_display (nodes st)) ->
  tree_inv (node_index (step_line st idx raw)) (stack (step_line st idx raw))
           (edges (step_line st idx raw)) (paths (step_line st idx raw))
           (path_display (nodes (step_line st idx raw))).
Proof.
  intros H. unfold step_line. cbv zeta.
  set (st1 := match_or_count st idx (rstrip raw)).
  assert (H1 : tree_inv (node_index st1) (stack st1) (edges st1) (paths st1) (path_display (nodes st1))).
  { subst st1. unfold match_or_count.
    destruct (match_node_open (rstrip raw)) as [[label name] |].
    - apply tree_inv_open. exact H.
    - destruct (count_braces_outside_strings (rstrip raw)). exact H. }
  destruct (close_frames_shape idx (brace_depth st1) (stack st1) (nodes st1)) as [Hs1 Hs2].
  destruct (close_frames idx (brace_depth st1) (stack st1) (nodes st1)) as [stk ns]. simpl in *.
  rewrite Hs1. destruct H1 as (I1 & I2 & I3). split; [exact I1|]. split; [|exact I3].
  intros f Hf. apply I2, Hs2, Hf.
Qed.

Lemma tree_inv_parse_lines lines idx st :
  tree_inv (node_index st) (stack st) (edges st) (paths st) (path_display (nodes st)) ->
  let st' := parse_lines idx lines st in
  tree_inv (node_index st') (stack st') (edges st') (paths st') (path_display (nodes st')).
Proof.
  revert idx st. induction lines as [| l ls IH]; intros idx st H; simpl; [exact H|].
  apply IH, tree_inv_step, H.
Qed.

Lemma parse_tree_inv (content : string) :
  exists ni stk ps,
    tree_inv ni stk (r_edges (parse_dtsi_with_map content)) ps
             (path_display (r_nodes (parse_dtsi_with_map content))) /\
    r_paths (parse_dtsi_with_map content) = sort_strings (elements ps).
Proof.
  unfold parse_dtsi_with_map. cbv zeta. simpl.
  set (lines := splitlines (strip_comments content)).
  assert (H0 : tree_inv (node_index init_pstate) (stack init_pstate) (edges init_pstate)
                        (paths init_pstate) (path_display (nodes init_pstate))).
  { unfold path_display. simpl. rewrite fmap_empty.
    split; [|split; [|split; [|split; [|split]]]].
    - intros k. rewrite lookup_empty. split; [intros [? Hx]; discriminate Hx | lia].
    - intros f Hf. apply not_elem_of_nil in Hf. contradiction.
    - intros p c Hpc. apply not_elem_of_nil in Hpc. contradiction.
    - constructor.
    - intros x. split; [set_solver|]. intros (k & d & Hk). rewrite lookup_empty in Hk. discriminate Hk.
    - intros k x d Hk. rewrite lookup_empty in Hk. discriminate Hk. }
  pose proof (tree_inv_parse_lines lines 1 init_pstate H0) as H. simpl in H.
  set (st := parse_lines 1 lines init_pstate) in *.
  exists (node_index st), (stack st), (paths st). split; [|reflexivity].
  destruct lines; [exact H|]. rewrite force_close_shape. exact H.
Qed.

Lemma path_display_lookup (ns : gmap nat node) (k : nat) (x d : string) :
  path_display ns !! k = Some (x, d) <-> exists nd, ns !! k = Some nd /\ n_path nd = x /\ n_display nd = d.
Proof.
  unfold path_display. rewrite lookup_fmap. destruct (ns !! k) as [nd |]; simpl.
  - split; [intros [= <- <-]; eauto | intros (nd' & [= <-] & <- & <-); reflexivity].
  - split; [discriminate | intros (nd' & Hx & _); discriminate Hx].
Qed.

Lemma path_display_is_Some (ns : gmap nat node) (k : nat) :
  is_Some (path_display ns !! k) <-> is_Some (ns !! k).
Proof. unfold path_display. rewrite lookup_fmap. apply fmap_is_Some. Qed.

(** [parse_dtsi_with_map]: the node ids are [N0] to [N(n-1)] for some [n];
    every edge goes from an existing node to an existing node opened after
    it; no node has two parents. *)
Theorem parse_tree_edges (content : string) :
  (exists n, forall k, is_Some (r_nodes (parse_dtsi_with_map content) !! k) <-> k < n) /\
  (forall p c, (p, c) ∈ r_edges (parse_dtsi_with_map content) ->
     p < c /\ is_Some (r_nodes (parse_dtsi_with_map content) !! p) /\
     is_Some (r_nodes (parse_dtsi_with_map content) !! c)) /\
  NoDup (map snd (r_edges (parse_dtsi_with_map content))).
Proof.
  destruct (parse_tree_inv content) as (ni & stk & ps & (I1 & _ & I3 & I4 & _ & _) & _).
  split; [|split; [|exact I4]].
  - exists ni. intros k. rewrite <- path_display_is_Some. apply I1.
  - intros p c Hpc. destruct (I3 p c Hpc) as [H1 H2].
    split; [exact H1|]. rewrite <- !path_display_is_Some, !I1. lia.
Qed.

(** [parse_dtsi_with_map]: a node's path is its parent's path, [/], and its
    display name with double quotes trimmed and white space removed; a node
    without parent gets [/] and that name. *)
Theorem parse_tree_paths (content : string) (k : nat) (nd : node) :
  r_nodes (parse_dtsi_with_map content) !! k = Some nd ->
  (exists p np, (p, k) ∈ r_edges (parse_dtsi_with_map content) /\
     r_nodes (parse_dtsi_with_map content) !! p = Some np /\
     n_path nd = n_path np +:+ "/" +:+ remove_spaces (strip_dquote (n_display nd))) \/
  ((forall p, (p, k) ∉ r_edges (parse_dtsi_with_map content)) /\
   n_path nd = "/" +:+ remove_spaces (strip_dquote (n_display nd))).
Proof.
  intros Hk.
  destruct (parse_tree_inv content) as (ni & stk & ps & (_ & _ & _ & _ & _ & I6) & _).
  assert (Hp : path_display (r_nodes (parse_dtsi_with_map content)) !! k = Some (n_path nd, n_display nd))
    by (apply path_display_lookup; eauto).
  destruct (I6 _ _ _ Hp) as [_ [(p & x' & d' & Hpk & Hp' & Hx) | [Hnp Hx]]].
  - left. apply path_display_lookup in Hp' as (np & Hnp & <- & _). eauto.
  - right. auto.
Qed.

(** [parse_dtsi_with_map]: [paths] is sorted without repetition, holds
    exactly the paths of the nodes, and each of them starts with [/]. *)
Theorem parse_path_list (content : string) :
  Sorted String.le (r_paths (parse_dtsi_with_map content)) /\
  NoDup (r_paths (parse_dtsi_with_map content)) /\
  (forall x, x ∈ r_paths (parse_dtsi_with_map content) <->
     exists k nd, r_nodes (parse_dtsi_with_map content) !! k = Some nd /\ n_path nd = x) /\
  (forall x, x ∈ r_paths (parse_dtsi_with_map content) -> exists t, x = String "/" t).
Proof.
  destruct (parse_tree_inv content) as (ni & stk & ps & (_ & _ & _ & _ & I5 & I6) & Hr).
  rewrite Hr. destruct (sort_elements_spec ps) as (S1 & S2 & S3).
  split; [exact S2|]. split; [exact S3|].
  assert (Hm : forall x, x ∈ sort_strings (elements ps) <->
                 exists k nd, r_nodes (parse_dtsi_with_map content) !! k = Some nd /\ n_path nd = x).
  { intros x. rewrite S1, I5. split.
    - intros (k & d & Hk). apply path_display_lookup in Hk as (nd & H1 & H2 & _). eauto.
    - intros (k & nd & H1 & H2). exists k, (n_display nd). apply path_display_lookup. eauto. }
  split; [exact Hm|].
  intros x Hx. rewrite S1, I5 in Hx. destruct Hx as (k & d & Hk).
  exact (proj1 (I6 _ _ _ Hk)).
Qed.

(** ** Path segments *)

Lemma split_go_app (sep : ascii) (x t cur : string) :
  count_char sep x = 0 -> split_go sep cur (x +:+ t) = split_go sep (String.rev_app x cur) t.
Proof.
  revert cur. induction x as [| a x IH]; intros cur Hx; [reflexivity|].
  simpl in Hx. rewrite str_app_cons. simpl.
  destruct (chr_eq a sep); [simpl in Hx; lia|]. apply IH. simpl in Hx. exact Hx.
Qed.

Lemma split_on_join (sep : ascii) (x : string) (l : list string) :
  Forall (fun y => count_char sep y = 0) (x :: l) ->
  split_on sep (join (String sep EmptyString) (x :: l)) = x :: l.
Proof.
  revert x. induction l as [| y l IH]; intros x Hl; apply Forall_cons in Hl as [Hx Hl].
  - unfold split_on. simpl. rewrite <- (str_app_nil_r x) at 1. rewrite split_go_app by exact Hx.
    simpl. rewrite rev_rev_app. reflexivity.
  - unfold split_on.
    change (split_go sep EmptyString (x +:+ String sep (join (String sep EmptyString) (y :: l))) = x :: y :: l).
    rewrite split_go_app by exact Hx. simpl.
    assert (E : chr_eq sep sep = true) by (unfold chr_eq; apply Ascii.eqb_refl).
    rewrite E, rev_rev_app. f_equal. apply IH. exact Hl.
Qed.

(** [_top_name_from_path] and [_second_name_from_path] on a path made of
    segments free of [/]: empty segments (as in [//] or [///soc]) are
    skipped, and the first and second non-empty segments are returned. *)
Theorem path_names_of_segments (x : string) (l : list string) :
  Forall (fun y => count_char "/" y = 0) (x :: l) ->
  path_parts (join "/" (x :: l)) = filter nonempty (x :: l) /\
  top_name_from_path (join "/" (x :: l)) = head (filter nonempty (x :: l)) /\
  second_name_from_path (join "/" (x :: l)) = filter nonempty (x :: l) !! 1.
Proof.
  intros H. assert (Hp : path_parts (join "/" (x :: l)) = filter nonempty (x :: l)).
  { unfold path_parts. rewrite (split_on_join "/" x l H). reflexivity. }
  unfold top_name_from_path, second_name_from_path. rewrite Hp.
  split; [reflexivity|]. destruct (filter nonempty (x :: l)) as [| a [| b r]]; split; reflexivity.
Qed.

(** [re.sub(r'[^a-zA-Z0-9_]', '_', name)]: the Mermaid id keeps the length
    of the name, holds only [A-Za-z0-9_], and leaves such a name unchanged. *)
Theorem mermaid_id_spec (s : string) :
  String.length (mermaid_id s) = String.length s /\
  str_forall is_word (mermaid_id s) = true /\
  (str_forall is_word s = true -> mermaid_id s = s).
Proof.
  induction s as [| c s IH]; [split; [reflexivity | split; reflexivity]|].
  destruct IH as (H1 & H2 & H3). simpl. split; [rewrite H1; reflexivity|]. split.
  - rewrite H2. destruct (is_word c) eqn:E; [rewrite E; reflexivity | reflexivity].
  - destruct (is_word c); [|discriminate]. simpl. intros Hs. rewrite (H3 Hs). reflexivity.
Qed.

(** ** The idle extractor and diagram *)

Lemma StronglySorted_le_lt (l : list nat) :
  StronglySorted Nat.le l -> NoDup l -> StronglySorted Nat.lt l.
Proof.
  induction l as [| x l IH]; intros Hs Hn; [constructor|].
  apply StronglySorted_inv in Hs as [Hs Hall]. apply NoDup_cons in Hn as [Hx Hn].
  constructor; [apply IH; assumption|].
  apply Forall_forall. intros y Hy.
  assert (Hle : x <= y) by (rewrite Forall_forall in Hall; apply Hall; exact Hy).
  destruct (decide (x = y)) as [-> | Hne]; [|lia].
  exfalso. apply Hx. exact Hy.
Qed.

Lemma idx_set_sorted (ms : list caps) : StronglySorted Nat.lt (idx_set ms).
Proof.
  apply StronglySorted_le_lt; [|apply idx_set_NoDup].
  apply Sorted_StronglySorted; [intros ? ? ?; lia|]. apply Sorted_merge_sort. apply _.
Qed.

(** [extract_idle_info]: [cpu_idxs] and [pd_idxs] are strictly increasing. *)
Theorem idle_indices_increasing (content : string) (info : idle_info) :
  extract_idle_info content = IdleInfo info ->
  StronglySorted Nat.lt (cpu_idxs info) /\ StronglySorted Nat.lt (pd_idxs info).
Proof.
  intros H.
  destruct (extract_idle_info_cases content) as [H' | (cp & clp & _ & H')];
    rewrite H' in H; [discriminate H|]. injection H as <-. simpl.
  assert (H4 : StronglySorted Nat.lt [0; 1; 2; 3]) by (repeat constructor; lia).
  split.
  - destruct (bool_decide (matched_cpu_idxs (strip_comments content) = [])); [exact H4 | apply idx_set_sorted].
  - destruct (bool_decide (matched_pd_idxs (strip_comments content) = [])); [exact H4 | apply idx_set_sorted].
Qed.



(** ** [create] and [_safe_dtsi_path] *)


Lemma sanitize_name_spec (s : string) :
  str_forall name_char (sanitize_name s) = true /\
  (str_forall name_char s = true -> sanitize_name s = s).
Proof.
  unfold name_char. induction s as [| c s [IH1 IH2]]; [split; reflexivity|]. simpl.
  destruct (is_word c || chr_eq c "-") eqn:E; simpl.
  - rewrite E, IH1. split; [reflexivity|]. intros H. rewrite (IH2 H). reflexivity.
  - split; [exact IH1 | discriminate].
Qed.

Lemma str_forall_count (f : ascii -> bool) (a : ascii) (s : string) :
  f a = false -> str_forall f s = true -> count_char a s = 0.
Proof.
  intros Ha. induction s as [| c s IH]; [reflexivity|]. simpl. intros H.
  apply andb_prop in H as [Hc Hs]. rewrite (IH Hs).
  destruct (chr_eq c a) eqn:E; [apply chr_eq_true in E; subst c; congruence | reflexivity].
Qed.

(** [create]: a directory is made only under a non-empty name of
    [A-Za-z0-9_-] characters (so with no [/] and no [.]), which sanitising
    again leaves unchanged, and the redirect goes to that project. *)
Theorem create_safe_dir (form_name : option string) (d target : string) :
  create form_name = (Some d, target) ->
  target = "/project/" +:+ d /\ nonempty d = true /\
  str_forall name_char d = true /\ count_char "/" d = 0 /\ count_char "." d = 0 /\
  sanitize_name d = d.
Proof.
  unfold create. cbv zeta.
  destruct (sanitize_name_spec (default EmptyString form_name)) as [H1 _].
  destruct (nonempty (sanitize_name (default EmptyString form_name))) eqn:En; [|discriminate].
  intros [= <- <-]. split; [reflexivity|]. split; [exact En|]. split; [exact H1|].
  split; [apply (str_forall_count name_char); [reflexivity | exact H1]|].
  split; [apply (str_forall_count name_char); [reflexivity | exact H1]|].
  apply sanitize_name_spec. exact H1.
Qed.

Lemma split_go_no_sep (sep : ascii) (s cur x : string) :
  count_char sep cur = 0 -> x ∈ split_go sep cur s -> count_char sep x = 0.
Proof.
  assert (Hr : forall y, count_char sep (String.rev y) = count_char sep y).
  { intros y. unfold String.rev. rewrite count_char_rev_app. simpl. lia. }
  revert cur. induction s as [| c s IH]; intros cur Hcur Hx; simpl in Hx.
  - apply list_elem_of_singleton in Hx. subst x. rewrite Hr. exact Hcur.
  - destruct (chr_eq c sep) eqn:E.
    + apply elem_of_cons in Hx as [-> | Hx]; [rewrite Hr; exact Hcur|].
      apply (IH EmptyString); [reflexivity | exact Hx].
    + apply (IH (String c cur)); [simpl; unfold chr_eq in *; rewrite E; exact Hcur | exact Hx].
Qed.

Lemma last_elem_of (l : list string) (x : string) : last l = Some x -> x ∈ l.
Proof.
  induction l as [| y l IH]; [discriminate|]. destruct l as [| z l].
  - intros [= ->]. apply list_elem_of_here.
  - intros H. apply elem_of_cons. right. apply IH. exact H.
Qed.

Lemma path_name_no_slash (s : string) : count_char "/" (path_name s) = 0.
Proof.
  unfold path_name.
  destruct (last (filter (fun x => nonempty x && negb (String.eqb x ".")) (split_on "/" s))) as [x |] eqn:E;
    [simpl | reflexivity].
  apply last_elem_of, list_elem_of_filter in E as [_ Hx].
  exact (split_go_no_sep "/" s EmptyString x eq_refl Hx).
Qed.

(** [_safe_dtsi_path]: a returned path is [dts_dir], [/] and the base name
    of the request (no [/] in it, not [.] nor [..]), ends in [.dtsi] and
    exists; a base name without [.dtsi] is refused with 400 before the file
    system is consulted, and a missing file with 404. *)
Theorem safe_dtsi_path_spec (path_exists : string -> bool) (dts_dir filename : string) :
  match safe_dtsi_path path_exists dts_dir filename with
  | Ok fpath =>
      fpath = dts_dir +:+ "/" +:+ path_name filename /\
      count_char "/" (path_name filename) = 0 /\
      path_name filename <> "." /\ path_name filename <> ".." /\
      ends_with ".dtsi" (path_name filename) = true /\ path_exists fpath = true
  | Abort code _ =>
      (code = 400 /\ ends_with ".dtsi" (path_name filename) = false) \/
      (code = 404 /\ ends_with ".dtsi" (path_name filename) = true /\
       path_exists (dts_dir +:+ "/" +:+ path_name filename) = false)
  end.
Proof.
  unfold safe_dtsi_path. cbv zeta.
  destruct (ends_with ".dtsi" (path_name filename)) eqn:Ee; simpl; [|left; auto].
  destruct (path_exists (dts_dir +:+ "/" +:+ path_name filename)) eqn:Ex; simpl; [|right; auto].
  split; [reflexivity|]. split; [apply path_name_no_slash|].
  split; [intros H; rewrite H in Ee; discriminate Ee|].
  split; [intros H; rewrite H in Ee; discriminate Ee|]. auto.
Qed.

(** ** [services/git_service.py] *)


Lemma all_digits_app (x y : string) :
  all_digits (x +:+ y) = all_digits x && all_digits y.
Proof.
  induction x as [| a x IH]; [reflexivity|]. rewrite str_app_cons. simpl. rewrite IH.
  apply andb_assoc.
Qed.

Lemma str_length_app (x y : string) :
  String.length (x +:+ y) = String.length x + String.length y.
Proof. induction x as [| a x IH]; [reflexivity|]. rewrite str_app_cons. simpl. lia. Qed.

Lemma substring_prefix (x y : string) : String.substring 0 (String.length x) (x +:+ y) = x.
Proof.
  induction x as [| a x IH].
  - destruct y; reflexivity.
  - rewrite str_app_cons. simpl. rewrite IH. reflexivity.
Qed.

Lemma sound_digit : sound (p_cls is_digit) (digits_rel 1 1).
Proof.
  eapply sound_weaken; [apply sound_cls|]. intros s c s' c' (x & -> & Hx & ->).
  split; [reflexivity|]. exists (String x EmptyString). simpl. rewrite Hx. auto.
Qed.

Lemma sound_digits_seq (p q : pat) (a b a' b' : nat) :
  sound p (digits_rel a b) -> sound q (digits_rel a' b') ->
  sound (p_seq p q) (digits_rel (a + a') (b + b')).
Proof.
  intros Hp Hq. eapply sound_weaken; [apply (sound_seq _ _ _ _ Hp Hq)|].
  intros s c s' c' (s1 & c1 & [-> (w1 & -> & Hd1 & Hl1)] & [-> (w2 & -> & Hd2 & Hl2)]).
  split; [reflexivity|]. exists (w1 +:+ w2). rewrite str_append_assoc, all_digits_app, Hd1, Hd2,
    str_length_app. split; [reflexivity|]. split; [reflexivity | lia].
Qed.

Lemma sound_digits_opt (p : pat) (a b : nat) :
  sound p (digits_rel a b) -> sound (p_opt p) (digits_rel 0 b).
Proof.
  intros Hp. eapply sound_weaken; [apply (sound_alt _ _ _ _ Hp sound_eps)|].
  intros s c s' c' [[-> (w & -> & Hd & Hl)] | [-> ->]].
  - split; [reflexivity|]. exists w. split; [reflexivity|]. split; [exact Hd | lia].
  - split; [reflexivity|]. exists EmptyString. simpl. split; [reflexivity|]. split; [reflexivity | lia].
Qed.


Lemma PROGRESS_RE_sound (prev : option ascii) : sound (PROGRESS_RE prev) progress_rel.
Proof.
  unfold PROGRESS_RE.
  assert (Hd : sound (p_seq (p_cls is_digit) (p_opt (p_seq (p_cls is_digit) (p_opt (p_cls is_digit)))))
                 (digits_rel (1 + 0) (1 + (1 + 1)))).
  { apply sound_digits_seq; [apply sound_digit|].
    eapply sound_digits_opt, sound_digits_seq; [apply sound_digit|].
    eapply sound_digits_opt, sound_digit. }
  eapply sound_weaken; [apply (sound_seq _ _ _ _ (sound_group 1 _ _ Hd) (sound_cls _))|].
  intros s c s' c' (s1 & c1 & (c2 & [-> (w & -> & Hw & Hl)] & ->) & (x & -> & Hx & ->)).
  apply chr_eq_true in Hx. subst x. exists w.
  rewrite str_length_app, Nat.add_sub, substring_prefix. auto.
Qed.

Lemma int_of_digits_go_bound (w : string) : forall acc,
  all_digits w = true -> int_of_digits_go acc w < (acc + 1) * 10 ^ String.length w.
Proof.
  induction w as [| c w IH]; intros acc H; simpl in *; [lia|].
  apply andb_prop in H as [Hc Hw]. unfold is_digit in Hc.
  apply andb_prop in Hc as [H1 H2]. apply Nat.leb_le in H1, H2.
  specialize (IH (10 * acc + (nat_of_ascii c - 48)) Hw).
  assert (10 * acc + (nat_of_ascii c - 48) + 1 <= (acc + 1) * 10) by lia.
  eapply Nat.lt_le_trans; [exact IH|].
  remember (10 ^ String.length w) as P. nia.
Qed.

Lemma progress_percent (line rest : string) (c : caps) :
  re_search PROGRESS_RE None line = Some (rest, c) ->
  exists pre w post, line = pre +:+ w +:+ String "%" post /\ all_digits w = true /\
    1 <= String.length w <= 3 /\ group 1 c = Some w /\ int_of_digits w <= 999.
Proof.
  intros H. destruct (re_search_at _ _ _ _ H) as (pre & t & prev & -> & Ht).
  destruct (run_at_sound _ _ _ _ _ (PROGRESS_RE_sound prev) Ht) as (w & -> & -> & Hw & Hl).
  exists pre, w, rest. split; [reflexivity|]. split; [exact Hw|]. split; [exact Hl|].
  split; [simpl; reflexivity|].
  pose proof (int_of_digits_go_bound w 0 Hw). unfold int_of_digits.
  assert (10 ^ String.length w <= 10 ^ 3) by (apply Nat.pow_le_mono_r; lia).
  simpl in *. lia.
Qed.

Lemma progress_loop_other (name : string) (out : list string) (st : gmap string clone_state) :
  forall n, n <> name -> progress_loop name out st !! n = st !! n.
Proof.
  revert st. induction out as [| line out IH]; intros st n Hn; simpl; [reflexivity|].
  rewrite IH by exact Hn.
  destruct (re_search PROGRESS_RE None line) as [[rest c] |]; [|reflexivity].
  unfold update_state. apply lookup_insert_ne. congruence.
Qed.

(** The progress loop of [run_sparse_checkout] touches only the entry of
    [name]; that entry is either left as it was (no output line has a
    [NN%]) or is ["cloning"] with a percentage of one to three digits read
    off an output line, so at most 999, and that line stripped as its log. *)
Theorem progress_loop_spec (name : string) (out : list string) (st : gmap string clone_state) :
  (forall n, n <> name -> progress_loop name out st !! n = st !! n) /\
  (progress_loop name out st !! name = st !! name \/
   exists line pre w post, line ∈ out /\ line = pre +:+ w +:+ String "%" post /\
     all_digits w = true /\ 1 <= String.length w <= 3 /\ int_of_digits w <= 999 /\
     progress_loop name out st !! name = Some (mk_cstate "cloning" (int_of_digits w) (py_strip line))).
Proof.
  revert st. induction out as [| line out IH]; intros st; simpl; [split; auto|].
  destruct (re_search PROGRESS_RE None line) as [[rest c] |] eqn:E.
  - destruct (progress_percent _ _ _ E) as (pre & w & post & Hl & Hw & Hlen & Hg & Hb).
    rewrite Hg. simpl.
    destruct (IH (update_state st name "cloning" (int_of_digits w) (py_strip line))) as [Hne [Heq | Hex]].
    + split.
      * intros n Hn. rewrite Hne by exact Hn. unfold update_state. apply lookup_insert_ne. congruence.
      * right. exists line, pre, w, post. split; [apply list_elem_of_here|].
        rewrite Heq. unfold update_state. rewrite lookup_insert_eq. auto.
    + split.
      * intros n Hn. rewrite Hne by exact Hn. unfold update_state. apply lookup_insert_ne. congruence.
      * right. destruct Hex as (l & p & v & q & Hin & Hrest). exists l, p, v, q.
        split; [apply elem_of_cons; right; exact Hin | exact Hrest].
  - destruct (IH st) as [Hne [Heq | Hex]]; split; auto.
    right. destruct Hex as (l & p & v & q & Hin & Hrest). exists l, p, v, q.
    split; [apply elem_of_cons; right; exact Hin | exact Hrest].
Qed.

(** [run_sparse_checkout] changes the [STATE] entry of [name] only: a
    failure before the [try] leaves it as it was; otherwise it ends as
    ["error"] with the exception message, as ["ready"] at 100 after a
    successful pull, or as ["error"] with ["Git Error"] after a failed one,
    whatever progress was reported on the way. *)
Theorem run_sparse_checkout_outcome (name : string) (r : git_run) (st : gmap string clone_state) :
  (forall n, n <> name -> run_sparse_checkout name r st !! n = st !! n) /\
  get_state (run_sparse_checkout name r st) name =
    match r with
    | SetupRaised => get_state st name
    | Raised msg => mk_cstate "error" 0 msg
    | Pulled _ rc => if (rc =? 0)%Z then mk_cstate "ready" 100 "Ready"
                     else mk_cstate "error" 0 "Git Error"
    end.
Proof.
  unfold run_sparse_checkout, get_state, update_state. destruct r as [| msg | out rc].
  - auto.
  - split; [|rewrite lookup_insert_eq; reflexivity].
    intros n Hn. rewrite !lookup_insert_ne by congruence. reflexivity.
  - pose proof (progress_loop_other name out (<[name:=mk_cstate "cloning" 0 "Starting..."]> st)) as Hne.
    destruct (rc =? 0)%Z; (split; [|rewrite lookup_insert_eq; reflexivity]);
      intros n Hn; rewrite lookup_insert_ne, Hne, lookup_insert_ne by congruence; reflexivity.
Qed.

(** ** Theorem forms of the preprocessing lemmas *)

(** [_strip_comments] returns a text without a [/] unchanged. *)
Theorem strip_comments_no_slash (text : string) :
  count_char "/" text = 0 -> strip_comments text = text.
Proof. intros H. apply (strip_go_no_slash (String.length text)); [lia | exact H]. Qed.

(** [_strip_comments] never adds a character: each character occurs in the
    result at most as often as in the input. *)
Theorem strip_comments_never_adds (a : ascii) (text : string) :
  count_char a (strip_comments text) <= count_char a text.
Proof. apply (strip_go_count (String.length text)). lia. Qed.

(** In a text without [*] (so without block comments) [_strip_comments]
    keeps every newline. *)
Theorem strip_comments_newlines_no_star (text : string) :
  count_char "*" text = 0 -> count_char nl (strip_comments text) = count_char nl text.
Proof. intros H. apply (strip_go_newlines (String.length text)); [lia | exact H]. Qed.

(** On a line without a backslash, [_count_braces_outside_strings] counts
    every [{] and every [}] of the line, those inside quotes included. *)
Theorem count_braces_no_backslash (line : string) :
  count_char "\" line = 0 ->
  count_braces_outside_strings line = (count_char "{" line, count_char "}" line).
Proof.
  intros H. unfold count_braces_outside_strings.
  rewrite (count_braces_go_no_escape line false None 0 0 H); [reflexivity|]. discriminate.
Qed.

(** [str.splitlines] undoes ["\n".join] of lines without line breaks,
    except that a last empty line is dropped. *)
Theorem splitlines_join_roundtrip (l : list string) :
  Forall (fun x => no_line_break x = true) l ->
  splitlines (join (String nl EmptyString) l) =
    match last l with Some EmptyString => removelast l | _ => l end.
Proof. apply splitlines_join. Qed.

(** Every line returned by [str.splitlines] is free of line breaks and
    holds each character at most as often as the text. *)
Theorem splitlines_lines (s x : string) :
  x ∈ splitlines s ->
  no_line_break x = true /\ forall a, count_char a x <= count_char a s.
Proof.
  intros Hx. destruct (splitlines_go_lines (String.length s) s ltac:(lia) EmptyString x Hx) as [H1 H2].
  split; [exact (H1 eq_refl)|]. intros a. specialize (H2 a). simpl in H2. exact H2.
Qed.

(** ** Witnesses *)



Lemma parse_node_lines_witness :
  exists e l,
    end_line (mk_node None "gcc" "gcc" 2 (Some 3) "/soc/gcc") = Some e /\
    1 <= start_line (mk_node None "gcc" "gcc" 2 (Some 3) "/soc/gcc") <= e /\
    e <= length (splitlines (strip_comments soc_gcc_input)) /\
    splitlines (strip_comments soc_gcc_input) !!
      (start_line (mk_node None "gcc" "gcc" 2 (Some 3) "/soc/gcc") - 1) = Some l /\
    0 < count_char "{" l.
Proof. apply (parse_node_lines soc_gcc_input 1). vm_compute. reflexivity. Defined.

Lemma parse_tree_paths_witness :
  (exists p np, (p, 1) ∈ r_edges (parse_dtsi_with_map soc_gcc_input) /\
     r_nodes (parse_dtsi_with_map soc_gcc_input) !! p = Some np /\
     n_path (mk_node None "gcc" "gcc" 2 (Some 3) "/soc/gcc") =
       n_path np +:+ "/" +:+ remove_spaces (strip_dquote
         (n_display (mk_node None "gcc" "gcc" 2 (Some 3) "/soc/gcc")))) \/
  ((forall p, (p, 1) ∉ r_edges (parse_dtsi_with_map soc_gcc_input)) /\
   n_path (mk_node None "gcc" "gcc" 2 (Some 3) "/soc/gcc") =
     "/" +:+ remove_spaces (strip_dquote (n_display (mk_node None "gcc" "gcc" 2 (Some 3) "/soc/gcc")))).
Proof. apply (parse_tree_paths soc_gcc_input 1). vm_compute. reflexivity. Defined.

Lemma path_names_of_segments_witness :
  path_parts (join "/" ["soc"; "gcc"; "clk"]) = filter nonempty ["soc"; "gcc"; "clk"] /\
  top_name_from_path (join "/" ["soc"; "gcc"; "clk"]) = head (filter nonempty ["soc"; "gcc"; "clk"]) /\
  second_name_from_path (join "/" ["soc"; "gcc"; "clk"]) = filter nonempty ["soc"; "gcc"; "clk"] !! 1.
Proof. apply (path_names_of_segments "soc" ["gcc"; "clk"]). repeat constructor. Defined.

Lemma idle_indices_increasing_witness :
  StronglySorted Nat.lt (cpu_idxs (mk_idle true [0] [0; 1; 2; 3] (Some "0x40000004") None false false)) /\
  StronglySorted Nat.lt (pd_idxs (mk_idle true [0] [0; 1; 2; 3] (Some "0x40000004") None false false)).
Proof. apply (idle_indices_increasing c7_text). vm_compute. reflexivity. Defined.

Lemma create_safe_dir_witness :
  "/project/myproj" = "/project/" +:+ "myproj" /\ nonempty "myproj" = true /\
  str_forall name_char "myproj" = true /\ count_char "/" "myproj" = 0 /\
  count_char "." "myproj" = 0 /\ sanitize_name "myproj" = "myproj".
Proof. apply (create_safe_dir (Some "my proj")). vm_compute. reflexivity. Defined.

Lemma strip_comments_no_slash_witness : strip_comments soc_gcc_input = soc_gcc_input.
Proof. apply strip_comments_no_slash. vm_compute. reflexivity. Defined.

Lemma strip_comments_newlines_no_star_witness :
  count_char nl (strip_comments ("a {" +:+ String nl "}; // b")) = count_char nl ("a {" +:+ String nl "}; // b").
Proof. apply strip_comments_newlines_no_star. vm_compute. reflexivity. Defined.

Lemma count_braces_no_backslash_witness :
  count_braces_outside_strings quoted_brace_line = (1, 0) /\
  count_braces_outside_strings quoted_brace_line =
    (count_char "{" quoted_brace_line, count_char "}" quoted_brace_line).
Proof.
  split; [vm_compute; reflexivity|].
  apply count_braces_no_backslash. vm_compute. reflexivity.
Defined.

Lemma splitlines_join_roundtrip_witness :
  splitlines (join (String nl EmptyString) ["soc {"; "};"; EmptyString]) =
    match last ["soc {"; "};"; EmptyString] with
    | Some EmptyString => removelast ["soc {"; "};"; EmptyString]
    | _ => ["soc {"; "};"; EmptyString]
    end.
Proof. apply splitlines_join_roundtrip. repeat constructor. Defined.

Lemma splitlines_lines_witness :
  no_line_break "gcc {" = true /\ forall a, count_char a "gcc {" <= count_char a soc_gcc_input.
Proof.
  apply splitlines_lines.
  assert (E : splitlines soc_gcc_input = ["soc {"; "gcc {"; "};"; "};"]) by (vm_compute; reflexivity).
  rewrite E. apply elem_of_cons. right. apply list_elem_of_here.
Defined.
